(** * collaborators.go: permission aggregation, team paths, pagination

    A shallow embedding of [collaborators.go] (the version that takes the
    organization name as an argument and decodes permissions into the
    [Permission] enum), together with the properties its specification
    states about it.

    - Go maps are [gmap]s; indexing a Go map at a missing key yields the
      zero value of the element type, which [index] writes out.
    - The GraphQL transport is a script of responses, consumed one per
      call; every response that decodes carries all requested fields.
    - The parent-chain walk of [getTeamFullnames] is a Go [for] loop with
      no bound; it is embedded with a step budget, and running out of
      every budget is what non-termination means here.
    - [Main] is embedded with the list of what it prints and flushes;
      the earlier [getCollaborators] of the same file, on permission
      strings, is embedded next to the later one and compared with it. *)

From Stdlib Require Import String Ascii List Arith Lia OrderedTypeEx.
From stdpp Require Import base option strings list gmap fin_maps relations sorting.

Open Scope string_scope.
Open Scope list_scope.

(** ** Permissions *)

(** [type Permission int] with the constants [PermNONE .. PermADMIN];
    [UnmarshalText] accepts the four names only. *)
Inductive Permission : Type :=
  | PermNONE
  | PermREAD
  | PermWRITE
  | PermADMIN.

#[global] Instance Permission_eq_dec : EqDecision Permission.
Proof. solve_decision. Defined.

(** ** Errors and results *)

(** [graphql] fails with a transport, protocol or decode error;
    [getCollaborators] adds the mismatch built by
    [fmt.Errorf("mismatch for reponame=%q collaborator=%q : %q != %q",
                reponame, key, val, source.Permission)],
    kept here as its four arguments. *)
Inductive error : Type :=
  | GraphqlError (msg : string)
  | Mismatch (reponame key : string) (val new : Permission).

Inductive result (A : Type) : Type :=
  | Err (e : error)
  | Ok (a : A).
Arguments Err {A} e.
Arguments Ok {A} a.

Definition bind {A B : Type} (r : result A) (k : A -> result B) : result B :=
  match r with
  | Err e => Err e
  | Ok a => k a
  end.

Notation "x <- r ;; k" := (bind r (fun x => k))
  (at level 100, r at next level, right associativity).

(** [m[k]] on a Go map: the stored value, or the zero value. *)
Definition index {V : Type} (zero : V) (m : gmap string V) (k : string) : V :=
  default zero (m !! k).

(** ** getCollaborators *)

Module Collab.

Record Source : Type := mkSource {
  Org : string;
  Repo : string;
  Team : string
}.

(** One element of [PermissionSources]: the fields [Permission] and
    [Source] of the Go struct. *)
Record PermissionSource : Type := mkPermissionSource {
  Perm : Permission;
  Src : Source
}.

Record Edge : Type := mkEdge {
  Login : string;
  PermissionSources : list PermissionSource
}.

(** The state one collaborator's scan threads through its sources: the
    result map [ret] (shared by all collaborators of the repository) and
    the two locals [isOrgOwner] and [skippedSources]. *)
Record scanState : Type := mkScan {
  ret : gmap string Permission;
  isOrgOwner : bool;
  skippedSources : gmap string bool
}.

Section Aggregation.
Variable teamFullnames : gmap string string.
Variables orgname reponame : string.

(** The [switch] that derives [key]; with no field set, [key] keeps
    its zero value. *)
Definition sourceKey (login : string) (s : Source) : string :=
  if bool_decide (Org s <> "") then "org:" +:+ Org s
  else if bool_decide (Team s <> "") then "team:" +:+ index "" teamFullnames (Team s)
  else if bool_decide (Repo s <> "") then "user:" +:+ login
  else "".

(** [key == "org:"+orgname] *)
Definition isAmbient (key : string) : bool :=
  bool_decide (key = "org:" +:+ orgname).

(** [isOrgOwner && !skippedSources[key] && source.Permission == PermADMIN] *)
Definition ownerBypass (st : scanState) (key : string) (p : Permission) : bool :=
  isOrgOwner st && negb (index false (skippedSources st) key)
    && bool_decide (p = PermADMIN).

(** The condition under which a differing value is resolved to ADMIN.
    In Go [&&] binds tighter than [||], so the expression
    [HasPrefix(key, "team:") && (W && A) || (A && W)] groups as
    [(HasPrefix && (W && A)) || (A && W)]. *)
Definition resolvesToAdmin (key : string) (val p : Permission) : bool :=
  (String.prefix "team:" key
     && (bool_decide (val = PermWRITE) && bool_decide (p = PermADMIN)))
  || (bool_decide (val = PermADMIN) && bool_decide (p = PermWRITE)).

Definition setRet (st : scanState) (key : string) (p : Permission) : scanState :=
  mkScan (<[key := p]> (ret st)) (isOrgOwner st) (skippedSources st).

(** The tail of the loop body: the [if val, exists := ret[key]; ...]
    statement and the final [ret[key] = source.Permission]. *)
Definition merge (st : scanState) (key : string) (p : Permission) : result scanState :=
  match ret st !! key with
  | Some val =>
      if bool_decide (val <> p) then
        if resolvesToAdmin key val p then Ok (setRet st key PermADMIN)
        else Err (Mismatch reponame key val p)
      else Ok (setRet st key p)
  | None => Ok (setRet st key p)
  end.

(** One iteration of the inner loop. *)
Definition step (login : string) (st : scanState) (source : PermissionSource)
  : result scanState :=
  let key := sourceKey login (Src source) in
  if isAmbient key then
    Ok (if bool_decide (Perm source = PermADMIN)
        then mkScan (ret st) true (skippedSources st)
        else st)
  else if ownerBypass st key (Perm source) then
    Ok (mkScan (ret st) (isOrgOwner st) (<[key := true]> (skippedSources st)))
  else merge st key (Perm source).

(** Whether the iteration for [source] leaves through the second
    [continue]: the source is not the ambient one and the owner bypass
    discards it. *)
Definition suppressed (login : string) (st : scanState) (source : PermissionSource)
  : bool :=
  negb (isAmbient (sourceKey login (Src source)))
    && ownerBypass st (sourceKey login (Src source)) (Perm source).

(** Whether the iteration for [source] sets [isOrgOwner]. *)
Definition grantsOwner (login : string) (source : PermissionSource) : bool :=
  isAmbient (sourceKey login (Src source)) && bool_decide (Perm source = PermADMIN).

(** [source] derives the key [k] and carries WRITE or ADMIN. *)
Definition writeOrAdminFor (login k : string) (source : PermissionSource) : Prop :=
  sourceKey login (Src source) = k
  /\ (Perm source = PermWRITE \/ Perm source = PermADMIN).


(** The inner loop over one collaborator's sources. *)
Fixpoint scan (login : string) (st : scanState) (sources : list PermissionSource)
  : result scanState :=
  match sources with
  | [] => Ok st
  | source :: rest => st' <- step login st source ;; scan login st' rest
  end.

(** How many iterations of the inner loop discard a source with key
    [key] through the owner bypass, counted up to the end of the list
    or the error that ends the scan. *)
Fixpoint suppressions (login : string) (st : scanState)
    (sources : list PermissionSource) (key : string) : nat :=
  match sources with
  | [] => 0
  | source :: rest =>
      (if suppressed login st source
          && bool_decide (sourceKey login (Src source) = key)
       then 1 else 0)
      + match step login st source with
        | Ok st' => suppressions login st' rest key
        | Err _ => 0
        end
  end.

(** The outer loop: the locals are fresh for every collaborator, [ret]
    is carried over. *)
Fixpoint aggregateFrom (r : gmap string Permission) (edges : list Edge)
  : result (gmap string Permission) :=
  match edges with
  | [] => Ok r
  | userInfo :: rest =>
      st <- scan (Login userInfo) (mkScan r false ∅) (PermissionSources userInfo) ;;
      aggregateFrom (ret st) rest
  end.

Definition aggregate (edges : list Edge) : result (gmap string Permission) :=
  aggregateFrom ∅ edges.

(** [getCollaborators], given what the one [graphql] call returned. *)
Definition getCollaborators (resp : result (list Edge))
  : result (gmap string Permission) :=
  edges <- resp ;; aggregate edges.

(** Some collaborator of [edges] has a source that derives the key [k]
    and carries the permission [p]. *)
Definition sourced (edges : list Edge) (k : string) (p : Permission) : Prop :=
  exists userInfo source,
    userInfo ∈ edges
    /\ source ∈ PermissionSources userInfo
    /\ sourceKey (Login userInfo) (Src source) = k
    /\ Perm source = p.

(** No key is derived with two different permissions anywhere in
    [edges]. *)
Definition consistent (edges : list Edge) : Prop :=
  forall k p q, sourced edges k p -> sourced edges k q -> p = q.

(** How a recorded permission may differ later on: not at all, or WRITE
    has become ADMIN. *)
Definition settled (before after : Permission) : Prop :=
  after = before \/ (before = PermWRITE /\ after = PermADMIN).

End Aggregation.

End Collab.

(** ** Cursor pagination *)

Module Paging.

Record PageInfo : Type := mkPageInfo {
  HasNextPage : bool;
  EndCursor : string
}.

Record Page (N : Type) : Type := mkPage {
  Info : PageInfo;
  Nodes : list N
}.
Arguments mkPage {N} Info Nodes.
Arguments Info {N} p.
Arguments Nodes {N} p.

(** What a run of a function that calls [graphql] amounts to: it
    returns (a value or an error), or it asks the scripted transport for
    a response the script does not have, or (for [getTeamFullnames]) a
    parent-chain walk uses up its step budget. *)
Inductive outcome (A : Type) : Type :=
  | Returned (r : result A)
  | ScriptExhausted
  | OutOfFuel.
Arguments Returned {A} r.
Arguments ScriptExhausted {A}.
Arguments OutOfFuel {A}.

Section Loop.
Context {N A : Type}.

(** The body of the inner [for _, x := range ...Nodes] loop. *)
Variable body : A -> N -> A.

(** The loop
    [for args["cursor"] == nil || raw...PageInfo.HasNextPage { ... }]
    shared by [getTeamFullnames] and [getRepos].  [cursor] is
    [args["cursor"]], [hasNextPage] the flag left in the decoded
    struct by the previous call, [sent] the cursors of the calls made
    so far, oldest first. *)
Fixpoint pageLoop (script : list (result (Page N))) (cursor : option string)
    (hasNextPage : bool) (acc : A) (sent : list (option string))
  : outcome A * list (option string) :=
  if bool_decide (cursor = None) || hasNextPage then
    match script with
    | [] => (ScriptExhausted, sent)
    | resp :: script' =>
        match resp with
        | Err e => (Returned (Err e), sent ++ [cursor])
        | Ok page =>
            pageLoop script' (Some (EndCursor (Info page)))
              (HasNextPage (Info page))
              (fold_left body (Nodes page) acc) (sent ++ [cursor])
        end
    end
  else (Returned (Ok acc), sent).

Definition paginate (script : list (result (Page N))) (acc : A)
  : outcome A * list (option string) :=
  pageLoop script None false acc [].

End Loop.

(** The cursor a page tells the client to send next, all nodes of a
    sequence of pages in page order, and the pages' sizes. *)
Definition nextCursor {N : Type} (page : Page N) : option string :=
  Some (EndCursor (Info page)).

Definition allNodes {N : Type} (pages : list (Page N)) : list N :=
  concat (Nodes <$> pages).

Definition pageSizes {N : Type} (pages : list (Page N)) : list nat :=
  (fun page => length (Nodes page)) <$> pages.

Definition hasNext {N : Type} (page : Page N) : Prop :=
  HasNextPage (Info page) = true.

End Paging.

(** ** getRepos *)

Module Repos.
Import Paging.

Record RepoNode : Type := mkRepoNode {
  Name : string;
  URL : string;
  IsArchived : bool
}.

(** [RepoHandle{Name, URL}]; the fields are prefixed because [Name] and
    [URL] are taken by the node above. *)
Record RepoHandle : Type := mkRepoHandle {
  HName : string;
  HURL : string
}.

Definition keepRepo (repos : list RepoHandle) (repoInfo : RepoNode) : list RepoHandle :=
  if IsArchived repoInfo then repos
  else repos ++ [mkRepoHandle (Name repoInfo) (URL repoInfo)].

Definition getRepos (script : list (result (Page RepoNode)))
  : outcome (list RepoHandle) * list (option string) :=
  paginate keepRepo script [].

End Repos.

(** ** getTeamFullnames *)

Module Teams.
Import Paging.

Record TeamNode : Type := mkTeam {
  Slug : string;
  ParentTeam : option string
}.

(** The inner loop of the fetch phase: remember the slug, and the
    parent's slug when there is a parent. *)
Definition collectTeam (acc : list string * gmap string string) (teamInfo : TeamNode)
  : list string * gmap string string :=
  (acc.1 ++ [Slug teamInfo],
   match ParentTeam teamInfo with
   | Some parent => <[Slug teamInfo := parent]> acc.2
   | None => acc.2
   end).

(** [for tip != "" { parent := teamParents[tip]; ...; tip = parent }],
    with at most [fuel] iterations. *)
Fixpoint walk (fuel : nat) (teamParents : gmap string string) (tip full : string)
  : option string :=
  if bool_decide (tip <> "") then
    match fuel with
    | O => None
    | S fuel' =>
        let parent := index "" teamParents tip in
        walk fuel' teamParents parent
          (if bool_decide (parent <> "") then parent +:+ "/" +:+ full else full)
    end
  else Some full.

(** The second loop: one walk per collected slug. *)
Fixpoint resolveAll (fuel : nat) (teamParents : gmap string string)
    (teamSlugs : list string) (teamFullnames : gmap string string)
  : option (gmap string string) :=
  match teamSlugs with
  | [] => Some teamFullnames
  | teamSlug :: rest =>
      match walk fuel teamParents teamSlug teamSlug with
      | None => None
      | Some full =>
          resolveAll fuel teamParents rest (<[teamSlug := full]> teamFullnames)
      end
  end.

(** Both phases on an already fetched team set. *)
Definition resolveTeams (fuel : nat) (nodes : list TeamNode)
  : option (gmap string string) :=
  let '(teamSlugs, teamParents) := fold_left collectTeam nodes ([], ∅) in
  resolveAll fuel teamParents teamSlugs ∅.

Definition getTeamFullnames (fuel : nat) (script : list (result (Page TeamNode)))
  : outcome (gmap string string) * list (option string) :=
  match paginate collectTeam script ([], ∅) with
  | (Returned (Ok (teamSlugs, teamParents)), sent) =>
      (match resolveAll fuel teamParents teamSlugs ∅ with
       | Some teamFullnames => Returned (Ok teamFullnames)
       | None => OutOfFuel
       end, sent)
  | (Returned (Err e), sent) => (Returned (Err e), sent)
  | (ScriptExhausted, sent) => (ScriptExhausted, sent)
  | (OutOfFuel, sent) => (OutOfFuel, sent)
  end.

(** The parent relation the walk follows: [tip] has a recorded,
    non-empty parent slug. *)
Definition parentEdge (teamParents : gmap string string) (tip parent : string) : Prop :=
  teamParents !! tip = Some parent /\ parent <> "".

Definition acyclic (teamParents : gmap string string) : Prop :=
  forall slug, ~ tc (parentEdge teamParents) slug slug.

Definition teamParentsOf (nodes : list TeamNode) : gmap string string :=
  (fold_left collectTeam nodes ([], ∅)).2.

Definition teamSlugsOf (nodes : list TeamNode) : list string :=
  (fold_left collectTeam nodes ([], ∅)).1.

End Teams.

(** ** Permission names *)

Module Names.

(** [Permission.String]: the lookup in the table of the four names.
    The [Permission(%d)] fallback is for integers outside the four
    constants, which [Permission] here does not have. *)
Definition String (p : Permission) : string :=
  match p with
  | PermNONE => "NONE"
  | PermREAD => "READ"
  | PermWRITE => "WRITE"
  | PermADMIN => "ADMIN"
  end.

(** [fmt.Errorf("invalid permission enum string: %q", text)], kept as
    its argument. *)
Inductive textError : Type :=
  | InvalidPermission (text : string).

(** [Permission.UnmarshalText]: the lookup of the text in the table of
    names; a miss is an error and leaves the receiver alone. *)
Definition UnmarshalText (text : string) : textError + Permission :=
  match ({[ "NONE" := PermNONE; "READ" := PermREAD;
            "WRITE" := PermWRITE; "ADMIN" := PermADMIN ]}
           : gmap string Permission) !! text with
  | Some val => inr val
  | None => inl (InvalidPermission text)
  end.

End Names.

(** ** getCollaborators before the Permission type *)

(** The earlier [getCollaborators] kept in the same file: permissions
    are the strings as received, and the organization is the constant
    ["datawire"].  The [switch] that derives the key is the same, so
    [Collab.sourceKey] is used for it. *)
Module Legacy.

Record PermissionSource : Type := mkPermissionSource {
  Perm : string;
  Src : Collab.Source
}.

Record Edge : Type := mkEdge {
  Login : string;
  PermissionSources : list PermissionSource
}.

Record scanState : Type := mkScan {
  ret : gmap string string;
  isOrgOwner : bool;
  skippedSources : gmap string bool
}.

(** The mismatch carries the two permission strings. *)
Inductive error : Type :=
  | GraphqlError (msg : string)
  | Mismatch (reponame key val new : string).

Section Aggregation.
Variable teamFullnames : gmap string string.
Variable reponame : string.

(** [key == "org:datawire"] *)
Definition isAmbient (key : string) : bool :=
  bool_decide (key = "org:datawire").

(** [isOrgOwner && !skippedSources[key] && source.Permission == "ADMIN"] *)
Definition ownerBypass (st : scanState) (key p : string) : bool :=
  isOrgOwner st && negb (index false (skippedSources st) key)
    && bool_decide (p = "ADMIN").

Definition resolvesToAdmin (key val p : string) : bool :=
  (String.prefix "team:" key
     && (bool_decide (val = "WRITE") && bool_decide (p = "ADMIN")))
  || (bool_decide (val = "ADMIN") && bool_decide (p = "WRITE")).

Definition setRet (st : scanState) (key p : string) : scanState :=
  mkScan (<[key := p]> (ret st)) (isOrgOwner st) (skippedSources st).

Definition merge (st : scanState) (key p : string) : error + scanState :=
  match ret st !! key with
  | Some val =>
      if bool_decide (val <> p) then
        if resolvesToAdmin key val p then inr (setRet st key "ADMIN")
        else inl (Mismatch reponame key val p)
      else inr (setRet st key p)
  | None => inr (setRet st key p)
  end.

Definition step (login : string) (st : scanState) (source : PermissionSource)
  : error + scanState :=
  let key := Collab.sourceKey teamFullnames login (Src source) in
  if isAmbient key then
    inr (if bool_decide (Perm source = "ADMIN")
         then mkScan (ret st) true (skippedSources st)
         else st)
  else if ownerBypass st key (Perm source) then
    inr (mkScan (ret st) (isOrgOwner st) (<[key := true]> (skippedSources st)))
  else merge st key (Perm source).

Fixpoint scan (login : string) (st : scanState) (sources : list PermissionSource)
  : error + scanState :=
  match sources with
  | [] => inr st
  | source :: rest =>
      match step login st source with
      | inl e => inl e
      | inr st' => scan login st' rest
      end
  end.

Fixpoint aggregateFrom (r : gmap string string) (edges : list Edge)
  : error + gmap string string :=
  match edges with
  | [] => inr r
  | userInfo :: rest =>
      match scan (Login userInfo) (mkScan r false ∅) (PermissionSources userInfo) with
      | inl e => inl e
      | inr st => aggregateFrom (ret st) rest
      end
  end.

(** [getCollaborators], given what the [graphql] call returned. *)
Definition getCollaborators (resp : error + list Edge) : error + gmap string string :=
  match resp with
  | inl e => inl e
  | inr edges => aggregateFrom ∅ edges
  end.

End Aggregation.

End Legacy.

(** The input and output of the later version, with the permissions
    as their names. *)
Definition legacySource (source : Collab.PermissionSource) : Legacy.PermissionSource :=
  Legacy.mkPermissionSource (Names.String (Collab.Perm source)) (Collab.Src source).

Definition legacyEdge (userInfo : Collab.Edge) : Legacy.Edge :=
  Legacy.mkEdge (Collab.Login userInfo)
    (legacySource <$> Collab.PermissionSources userInfo).

Definition legacyError (e : error) : Legacy.error :=
  match e with
  | GraphqlError msg => Legacy.GraphqlError msg
  | Mismatch reponame key val new =>
      Legacy.Mismatch reponame key (Names.String val) (Names.String new)
  end.

Definition legacyResult (res : result (gmap string Permission))
  : Legacy.error + gmap string string :=
  match res with
  | Err e => inl (legacyError e)
  | Ok r => inr (Names.String <$> r)
  end.

(** ** Main *)

Module Report.
Import Collab Paging Repos Teams.

(** The order [sort.Strings] sorts by: byte-wise lexicographic. *)
Definition string_le (a b : string) : Prop := String.leb a b = true.

#[global] Instance string_le_dec : RelDecision string_le.
Proof. intros a b. unfold string_le. apply _. Defined.

Definition tab : string := String (ascii_of_nat 9) EmptyString.
Definition newline : string := String (ascii_of_nat 10) EmptyString.

Definition bucketNames : list string := ["org"; "team"; "user"].

(** [k+"="+v.String()] *)
Definition item (kv : string * Permission) : string :=
  kv.1 +:+ "=" +:+ Names.String kv.2.

(** One bucket as it is printed: the items of the entries whose key
    starts with [bucketName+":"], taken in the order [entries] in which
    the [range] over the map yields them, then sorted. *)
Definition bucket (entries : list (string * Permission)) (bucketName : string)
  : list string :=
  merge_sort string_le
    (item <$> filter (fun kv => String.prefix (bucketName +:+ ":") kv.1 = true) entries).

(** Everything one iteration writes to the tabwriter: the URL, then per
    bucket a tab and the items joined by spaces, then a newline. *)
Definition row (url : string) (entries : list (string * Permission)) : string :=
  url
  +:+ String.concat ""
        ((fun bucketName => tab +:+ String.concat " " (bucket entries bucketName))
           <$> bucketNames)
  +:+ newline.

(** What [Main] does besides fetching: the progress line on stderr
    ([i], [len(repos)] and the name are its arguments), a row written to
    the tabwriter, and the final [output.Flush()]. *)
Inductive event : Type :=
  | Inspecting (i n : nat) (name : string)
  | Written (text : string)
  | Flushed.

(** The errors of [Main]: the missing token, an error of
    [getTeamFullnames] or [getRepos] passed on as it is, and
    [fmt.Errorf("%s: %w", repo.URL, err)]. *)
Inductive mainError : Type :=
  | MissingToken
  | Fetch (e : error)
  | InRepo (url : string) (e : error).

(** How a run of [Main] ends: it returns (nil or an error), or the
    scripted transport has no response left, or a parent-chain walk has
    used up its budget. *)
Inductive exit : Type :=
  | Finished (err : option mainError)
  | NoResponse
  | NoReturn.

Section Run.
Variable orgname : string.

(** What the collaborators query returns for a repository name. *)
Variable fetch : string -> result (list Edge).

Variable teamFullnames : gmap string string.

(** The loop [for i, repo := range repos], from index [i] on, with the
    events so far in [log]. *)
Fixpoint inspect (n i : nat) (repos : list RepoHandle) (log : list event)
  : option mainError * list event :=
  match repos with
  | [] => (None, log)
  | repo :: rest =>
      match getCollaborators teamFullnames orgname (HName repo)
              (fetch (HName repo)) with
      | Err e =>
          (Some (InRepo (HURL repo) e), log ++ [Inspecting i n (HName repo)])
      | Ok collaborators =>
          inspect n (S i) rest
            (log ++ [Inspecting i n (HName repo);
                     Written (row (HURL repo) (map_to_list collaborators))])
      end
  end.

(** The events of inspecting [repos], numbered from [i], when their
    collaborator maps are [maps]. *)
Fixpoint eventsFor (n i : nat) (repos : list RepoHandle)
    (maps : list (gmap string Permission)) : list event :=
  match repos, maps with
  | repo :: repos', collaborators :: maps' =>
      Inspecting i n (HName repo)
      :: Written (row (HURL repo) (map_to_list collaborators))
      :: eventsFor n (S i) repos' maps'
  | _, _ => []
  end.

(** [getCollaborators] returns [collaborators] for [repo]. *)
Definition aggregatesTo (repo : RepoHandle) (collaborators : gmap string Permission)
  : Prop :=
  getCollaborators teamFullnames orgname (HName repo) (fetch (HName repo))
  = Ok collaborators.

End Run.

(** [Main], given the value of [GH_TOKEN], the step budget of the
    parent-chain walks, and what the transport answers. *)
Definition Main (token orgname : string) (fuel : nat)
    (teams : list (result (Page TeamNode)))
    (repos : list (result (Page RepoNode)))
    (fetch : string -> result (list Edge)) : exit * list event :=
  if bool_decide (token = "") then (Finished (Some MissingToken), [])
  else
    match (getTeamFullnames fuel teams).1 with
    | Returned (Err e) => (Finished (Some (Fetch e)), [])
    | ScriptExhausted => (NoResponse, [])
    | OutOfFuel => (NoReturn, [])
    | Returned (Ok teamFullnames) =>
        match (getRepos repos).1 with
        | Returned (Err e) => (Finished (Some (Fetch e)), [])
        | ScriptExhausted => (NoResponse, [])
        | OutOfFuel => (NoReturn, [])
        | Returned (Ok handles) =>
            match inspect orgname fetch teamFullnames (length handles) 0 handles [] with
            | (Some err, log) => (Finished (Some err), log)
            | (None, log) => (Finished None, log ++ [Flushed])
            end
        end
    end.

End Report.

(** ** Sample inputs *)

Module Sample.
Import Collab.

Definition org (login : string) (p : Permission) : PermissionSource :=
  mkPermissionSource p (mkSource login "" "").

Definition team (slug : string) (p : Permission) : PermissionSource :=
  mkPermissionSource p (mkSource "" "" slug).

Definition repo (name : string) (p : Permission) : PermissionSource :=
  mkPermissionSource p (mkSource "" name "").

Definition fullnames : gmap string string :=
  {[ "T" := "T"; "core" := "eng/core" ]}.

(** eng -> platform -> infra -> oncall, and a team whose parent was not
    fetched. *)
Definition chain : list Teams.TeamNode :=
  [Teams.mkTeam "eng" None;
   Teams.mkTeam "platform" (Some "eng");
   Teams.mkTeam "infra" (Some "platform");
   Teams.mkTeam "oncall" (Some "infra");
   Teams.mkTeam "guests" (Some "partners")].

Definition loop : list Teams.TeamNode :=
  [Teams.mkTeam "a" (Some "b"); Teams.mkTeam "b" (Some "a")].

Definition firstPage : Paging.Page Repos.RepoNode :=
  Paging.mkPage (Paging.mkPageInfo true "c1")
    [Repos.mkRepoNode "api" "https://example.org/api" false;
     Repos.mkRepoNode "old" "https://example.org/old" true].

Definition secondPage : Paging.Page Repos.RepoNode :=
  Paging.mkPage (Paging.mkPageInfo true "c2") [].

Definition lastPage : Paging.Page Repos.RepoNode :=
  Paging.mkPage (Paging.mkPageInfo false "c3")
    [Repos.mkRepoNode "web" "https://example.org/web" false].

Definition teamPages : list (result (Paging.Page Teams.TeamNode)) :=
  [Ok (Paging.mkPage (Paging.mkPageInfo false "t1") chain)].

Definition repoPages : list (result (Paging.Page Repos.RepoNode)) :=
  [Ok firstPage; Ok secondPage; Ok lastPage].

Definition chainNames : gmap string string :=
  {[ "eng" := "eng"; "platform" := "eng/platform";
     "infra" := "eng/platform/infra";
     "oncall" := "eng/platform/infra/oncall";
     "guests" := "partners/guests" ]}.

Definition api : Repos.RepoHandle :=
  Repos.mkRepoHandle "api" "https://example.org/api".

Definition web : Repos.RepoHandle :=
  Repos.mkRepoHandle "web" "https://example.org/web".

(** Collaborators of "api" aggregate; those of every other repository
    conflict on the team key. *)
Definition conflicting (name : string) : result (list Edge) :=
  if String.eqb name "api"
  then Ok [mkEdge "frank" [org "ACME" PermREAD; team "oncall" PermWRITE;
                           repo name PermREAD]]
  else Ok [mkEdge "frank" [team "oncall" PermREAD];
           mkEdge "grace" [team "oncall" PermWRITE]].

Definition agreeing (name : string) : result (list Edge) :=
  Ok [mkEdge "frank" [org "ACME" PermREAD; team "oncall" PermWRITE;
                      repo name PermREAD]].

Definition frankMap : gmap string Permission :=
  {[ "team:eng/platform/infra/oncall" := PermWRITE; "user:frank" := PermREAD ]}.

End Sample.

(** * Properties *)

Import Collab Paging Repos Teams.

(** ** Keys *)

Section KeyFacts.
Import Collab.

Lemma team_key_not_org (a b : string) : "team:" +:+ a <> "org:" +:+ b.
Proof. simpl. discriminate. Qed.

Lemma user_key_not_org (a b : string) : "user:" +:+ a <> "org:" +:+ b.
Proof. simpl. discriminate. Qed.

Lemma empty_key_not_org (b : string) : "" <> "org:" +:+ b.
Proof. simpl. discriminate. Qed.

Lemma user_key_not_team (a : string) : String.prefix "team:" ("user:" +:+ a) = false.
Proof. reflexivity. Qed.

Lemma team_key_prefix (a : string) : String.prefix "team:" ("team:" +:+ a) = true.
Proof. destruct a; reflexivity. Qed.

Lemma team_source_key tf login t r :
  t <> "" -> sourceKey tf login (mkSource "" r t) = "team:" +:+ index "" tf t.
Proof.
  intros Ht. unfold sourceKey. simpl.
  now rewrite (bool_decide_eq_true_2 _ Ht).
Qed.

Lemma repo_source_key tf login r :
  r <> "" -> sourceKey tf login (mkSource "" r "") = "user:" +:+ login.
Proof.
  intros Hr. unfold sourceKey. simpl.
  now rewrite (bool_decide_eq_true_2 _ Hr).
Qed.

Lemma org_source_key tf login o r t :
  o <> "" -> sourceKey tf login (mkSource o r t) = "org:" +:+ o.
Proof.
  intros Ho. unfold sourceKey. simpl.
  now rewrite (bool_decide_eq_true_2 _ Ho).
Qed.
End KeyFacts.

(** ** The aggregator *)

Section AggregationFacts.
Import Collab.
Variable teamFullnames : gmap string string.
Variables orgname reponame : string.

Local Abbreviation sourceKey := (sourceKey teamFullnames).
Local Abbreviation isAmbient := (isAmbient orgname).
Local Abbreviation merge := (merge reponame).
Local Abbreviation step := (step teamFullnames orgname reponame).
Local Abbreviation scan := (scan teamFullnames orgname reponame).
Local Abbreviation suppressed := (suppressed teamFullnames orgname).
Local Abbreviation aggregateFrom := (aggregateFrom teamFullnames orgname reponame).
Local Abbreviation aggregate := (aggregate teamFullnames orgname reponame).

Lemma scan_app login l1 l2 st :
  scan login st (l1 ++ l2) = (st' <- scan login st l1 ;; scan login st' l2).
Proof.
  revert st. induction l1 as [|s l1 IH]; intros st; simpl; [reflexivity|].
  destruct (step login st s) as [e|st1]; simpl; [reflexivity|apply IH].
Qed.

Lemma aggregateFrom_app r es1 es2 :
  aggregateFrom r (es1 ++ es2) = (r' <- aggregateFrom r es1 ;; aggregateFrom r' es2).
Proof.
  revert r. induction es1 as [|e es1 IH]; intros r; simpl; [reflexivity|].
  destruct (scan _ _ _) as [err|st]; simpl; [reflexivity|apply IH].
Qed.

(** Every write to [ret] is an insertion at the key handed to [merge]. *)
Lemma merge_ret st key p st' :
  merge st key p = Ok st' ->
  (exists v, ret st' = <[key := v]> (ret st))
  /\ isOrgOwner st' = isOrgOwner st
  /\ skippedSources st' = skippedSources st.
Proof.
  unfold merge. intros H.
  destruct (ret st !! key) as [val|];
    repeat case_match; simplify_eq; simpl; eauto.
Qed.

Lemma step_keeps_absent login st source st' k :
  isAmbient k = true ->
  ret st !! k = None ->
  step login st source = Ok st' ->
  ret st' !! k = None.
Proof.
  intros Hk Hnone. unfold step.
  destruct (isAmbient (sourceKey login (Src source))) eqn:Ha.
  - intros [= <-]. now case_match.
  - destruct (ownerBypass _ _ _); [now intros [= <-]|].
    intros Hm. apply merge_ret in Hm as ([v Hv] & _ & _).
    rewrite Hv, lookup_insert_ne; [exact Hnone|].
    intros <-. congruence.
Qed.

Lemma scan_keeps_absent login sources st st' k :
  isAmbient k = true ->
  ret st !! k = None ->
  scan login st sources = Ok st' ->
  ret st' !! k = None.
Proof.
  intros Hk. revert st. induction sources as [|s l IH]; intros st Hnone; simpl.
  - now intros [= <-].
  - destruct (step login st s) as [e|st1] eqn:Hs; simpl; [discriminate|].
    apply IH. eapply step_keeps_absent; eauto.
Qed.

Lemma aggregateFrom_keeps_absent edges r r' k :
  isAmbient k = true ->
  r !! k = None ->
  aggregateFrom r edges = Ok r' ->
  r' !! k = None.
Proof.
  intros Hk. revert r. induction edges as [|e l IH]; intros r Hnone; simpl.
  - now intros [= <-].
  - destruct (scan _ _ _) as [err|st] eqn:Hs; simpl; [discriminate|].
    apply IH. eapply scan_keeps_absent in Hs; eauto.
Qed.

(** When [merge] reports a conflict, and what it reports. *)
Lemma merge_conflict st key p val :
  ret st !! key = Some val ->
  val <> p ->
  resolvesToAdmin key val p = false ->
  merge st key p = Err (Mismatch reponame key val p).
Proof.
  intros Hl Hne Hr. unfold merge. rewrite Hl, Hr.
  now rewrite (bool_decide_eq_true_2 _ Hne).
Qed.

Lemma team_key_not_ambient k :
  String.prefix "team:" k = true -> isAmbient k = false.
Proof.
  intros Hp. unfold Collab.isAmbient. apply bool_decide_eq_false_2.
  intros ->. simpl in Hp. discriminate.
Qed.

Lemma setRet_setRet st k v w : setRet (setRet st k v) k w = setRet st k w.
Proof. unfold setRet. simpl. now rewrite insert_insert_eq. Qed.

Lemma setRet_id st k v : ret st !! k = Some v -> setRet st k v = st.
Proof. intros H. unfold setRet. rewrite (insert_id _ _ _ H). now destruct st. Qed.

(** What a non-owner's source does: the ambient test fails, the bypass
    is off, the source is merged. *)
Lemma step_non_owner login st source :
  isAmbient (sourceKey login (Src source)) = false ->
  isOrgOwner st = false ->
  step login st source = merge st (sourceKey login (Src source)) (Perm source).
Proof.
  intros Ha Ho. unfold Collab.step, ownerBypass. now rewrite Ha, Ho.
Qed.

Section WriteAdmin.
Variable login k : string.
Hypothesis team_scoped : String.prefix "team:" k = true.

Local Abbreviation writeOrAdminFor := (writeOrAdminFor teamFullnames login k).

Lemma admin_stays l : forall st,
  isOrgOwner st = false ->
  ret st !! k = Some PermADMIN ->
  Forall writeOrAdminFor l ->
  scan login st l = Ok st.
Proof.
  induction l as [|s l IH]; intros st Ho Hk Hall; simpl; [reflexivity|].
  inversion Hall as [|? ? Hs Hall']; subst. destruct Hs as [Hkey Hp].
  rewrite step_non_owner by (rewrite ?Hkey; auto using team_key_not_ambient).
  rewrite Hkey. unfold Collab.merge. rewrite Hk.
  destruct Hp as [-> | ->]; unfold resolvesToAdmin; rewrite ?team_scoped; simpl;
    rewrite (setRet_id _ _ _ Hk); now apply IH.
Qed.

Lemma write_until_admin l : forall st,
  isOrgOwner st = false ->
  ret st !! k = Some PermWRITE ->
  Forall writeOrAdminFor l ->
  PermADMIN ∈ Perm <$> l ->
  scan login st l = Ok (setRet st k PermADMIN).
Proof.
  induction l as [|s l IH]; intros st Ho Hk Hall Hin; simpl.
  - inversion Hin.
  - inversion Hall as [|? ? Hs Hall']; subst. destruct Hs as [Hkey Hp].
    rewrite step_non_owner by (rewrite ?Hkey; auto using team_key_not_ambient).
    rewrite Hkey. unfold Collab.merge. rewrite Hk.
    destruct Hp as [Hp | Hp]; rewrite Hp; simpl.
    + rewrite (setRet_id _ _ _ Hk). apply IH; auto.
      rewrite fmap_cons, Hp in Hin. apply elem_of_cons in Hin as [?|?]; [discriminate|auto].
    + unfold resolvesToAdmin. rewrite team_scoped. simpl.
      rewrite admin_stays; auto. simpl. apply lookup_insert_eq.
Qed.

Lemma first_write_or_admin l st :
  isOrgOwner st = false ->
  ret st !! k = None ->
  Forall writeOrAdminFor l ->
  PermWRITE ∈ Perm <$> l ->
  PermADMIN ∈ Perm <$> l ->
  scan login st l = Ok (setRet st k PermADMIN).
Proof.
  intros Ho Hk Hall Hw Ha. destruct l as [|s l]; [inversion Hw|]. simpl.
  inversion Hall as [|? ? Hs Hall']; subst. destruct Hs as [Hkey Hp].
  rewrite step_non_owner by (rewrite ?Hkey; auto using team_key_not_ambient).
  rewrite Hkey. unfold Collab.merge. rewrite Hk. simpl.
  rewrite fmap_cons in Hw, Ha.
  destruct Hp as [Hp | Hp]; rewrite Hp in *.
  - apply elem_of_cons in Ha as [?|Ha]; [discriminate|].
    rewrite write_until_admin; auto.
    + now rewrite setRet_setRet.
    + simpl. apply lookup_insert_eq.
  - rewrite admin_stays; auto. simpl. apply lookup_insert_eq.
Qed.

End WriteAdmin.

End AggregationFacts.

Lemma aggregateFrom_single tf orgname reponame r login l :
  aggregateFrom tf orgname reponame r [mkEdge login l]
  = (st <- scan tf orgname reponame login (mkScan r false ∅) l ;; Ok (ret st)).
Proof. reflexivity. Qed.

(** *** Conflicts *)

Lemma merge_admin_then_write reponame st key :
  ret st !! key = Some PermADMIN ->
  merge reponame st key PermWRITE = Ok (setRet st key PermADMIN).
Proof.
  intros H. unfold merge, resolvesToAdmin. rewrite H. simpl.
  now rewrite orb_true_r.
Qed.

Lemma read_then_write_conflicts tf orgname reponame login r :
  r <> "" ->
  aggregate tf orgname reponame
    [mkEdge login [Sample.repo r PermREAD; Sample.repo r PermWRITE]]
  = Err (Mismatch reponame ("user:" +:+ login) PermREAD PermWRITE).
Proof.
  intros Hr.
  assert (Ha : isAmbient orgname
                 (sourceKey tf login (Src (Sample.repo r PermREAD))) = false).
  { simpl. rewrite repo_source_key by assumption.
    apply bool_decide_eq_false_2, user_key_not_org. }
  unfold aggregate. simpl.
  rewrite step_non_owner by (simpl; auto).
  simpl. rewrite repo_source_key by assumption.
  unfold merge at 1. simpl. rewrite lookup_empty. simpl.
  rewrite step_non_owner by (simpl; auto).
  simpl. rewrite repo_source_key by assumption.
  erewrite merge_conflict; [reflexivity| apply lookup_insert_eq | discriminate |].
  unfold resolvesToAdmin. now rewrite user_key_not_team.
Qed.

(** C1: a non-team key already holding ADMIN that meets WRITE is not a
    conflict in the code.  For collaborator [bob] with the two repo-level
    sources ADMIN then WRITE, [getCollaborators] returns the map
    [{user:bob: ADMIN}] and no error, because the resolution test groups
    as [(team && W/A) || (A/W)]. *)
Theorem user_admin_then_write_is_not_reported :
  getCollaborators ∅ "ACME" "repo"
    (Ok [mkEdge "bob" [Sample.repo "repo" PermADMIN; Sample.repo "repo" PermWRITE]])
  = Ok {[ "user:bob" := PermADMIN ]}.
Proof. vm_compute. reflexivity. Qed.

(** *** WRITE and ADMIN on one team key *)

Section AmongOthers.
Variable tf : gmap string string.
Variables orgname reponame login k : string.
Hypothesis team_scoped : String.prefix "team:" k = true.

Local Abbreviation key source := (sourceKey tf login (Src source)).
Local Abbreviation notOwner := (fun source => grantsOwner tf orgname login source = false).
Local Abbreviation onlyWriteAdmin :=
  (fun source => key source = k -> Perm source = PermWRITE \/ Perm source = PermADMIN).








End AmongOthers.



Lemma team_write_then_admin tf orgname reponame login T :
  T <> "" ->
  aggregate tf orgname reponame
    [mkEdge login [Sample.team T PermWRITE; Sample.team T PermADMIN]]
  = Ok {[ "team:" +:+ index "" tf T := PermADMIN ]}.
Proof.
  intros HT. unfold aggregate. rewrite aggregateFrom_single.
  rewrite (first_write_or_admin tf orgname reponame login _
             (team_key_prefix (index "" tf T)));
    try reflexivity.
  - repeat apply Forall_cons_2; try apply Forall_nil_2;
      (split; [now apply team_source_key | simpl; auto]).
  - apply list_elem_of_here.
  - apply list_elem_of_further, list_elem_of_here.
Qed.

Lemma team_admin_then_write tf orgname reponame login T :
  T <> "" ->
  aggregate tf orgname reponame
    [mkEdge login [Sample.team T PermADMIN; Sample.team T PermWRITE]]
  = Ok {[ "team:" +:+ index "" tf T := PermADMIN ]}.
Proof.
  intros HT. unfold aggregate. rewrite aggregateFrom_single.
  rewrite (first_write_or_admin tf orgname reponame login _
             (team_key_prefix (index "" tf T)));
    try reflexivity.
  - repeat apply Forall_cons_2; try apply Forall_nil_2;
      (split; [now apply team_source_key | simpl; auto]).
  - apply list_elem_of_further, list_elem_of_here.
  - apply list_elem_of_here.
Qed.

(** *** Repeated tuples *)

Lemma merge_again reponame st key p st1 :
  merge reponame st key p = Ok st1 ->
  merge reponame st1 key p = Ok st1.
Proof.
  unfold merge. intros H.
  assert (Hsame : forall v, ret st1 = <[key := v]> (ret st) ->
            isOrgOwner st1 = isOrgOwner st ->
            skippedSources st1 = skippedSources st ->
            setRet st1 key v = st1).
  { intros v Hv Ho Hs. apply setRet_id. rewrite Hv. apply lookup_insert_eq. }
  destruct (ret st !! key) as [val|] eqn:Hl.
  - case_bool_decide as Hne.
    + destruct (resolvesToAdmin key val p) eqn:Hr; [|discriminate].
      injection H as <-. simpl. rewrite lookup_insert_eq.
      fold (setRet st key PermADMIN).
      unfold resolvesToAdmin in Hr.
      apply orb_true_iff in Hr as [Hr|Hr].
      * apply andb_true_iff in Hr as [_ Hr]. apply andb_true_iff in Hr as [_ Hr].
        apply bool_decide_eq_true_1 in Hr. subst p. simpl.
        now rewrite setRet_setRet.
      * apply andb_true_iff in Hr as [_ Hr].
        apply bool_decide_eq_true_1 in Hr. subst p. simpl.
        unfold resolvesToAdmin. simpl. rewrite orb_true_r.
        now rewrite setRet_setRet.
    + injection H as <-. simpl. rewrite lookup_insert_eq.
      rewrite bool_decide_eq_false_2 by (intros Hc; now apply Hc).
      fold (setRet st key p). now rewrite setRet_setRet.
  - injection H as <-. simpl. rewrite lookup_insert_eq.
    rewrite bool_decide_eq_false_2 by (intros Hc; now apply Hc).
    fold (setRet st key p). now rewrite setRet_setRet.
Qed.

(** A source that was not discarded by the owner bypass leaves a state
    on which the same source changes nothing. *)
Lemma step_again tf orgname reponame login st source st1 :
  suppressed tf orgname login st source = false ->
  step tf orgname reponame login st source = Ok st1 ->
  step tf orgname reponame login st1 source = Ok st1.
Proof.
  unfold suppressed, step.
  destruct (isAmbient orgname (sourceKey tf login (Src source))) eqn:Ha; simpl.
  - intros _ [= <-]. case_bool_decide; reflexivity.
  - intros Hb. rewrite Hb. intros Hm.
    pose proof (merge_ret _ _ _ _ _ Hm) as (_ & Ho & Hs).
    unfold ownerBypass in *. rewrite Ho, Hs, Hb.
    eapply merge_again; eauto.
Qed.

(** C3 (as amended): a tuple occurring twice in a row gives the same
    result, map or error, as the tuple occurring once, whenever the first
    of the two occurrences is not discarded by the owner bypass. *)
Theorem consecutive_duplicate_is_idempotent
    tf orgname reponame before login pre source post after :
  (forall r st,
     aggregateFrom tf orgname reponame ∅ before = Ok r ->
     scan tf orgname reponame login (mkScan r false ∅) pre = Ok st ->
     suppressed tf orgname login st source = false) ->
  aggregate tf orgname reponame
    (before ++ mkEdge login (pre ++ source :: source :: post) :: after)
  = aggregate tf orgname reponame
      (before ++ mkEdge login (pre ++ source :: post) :: after).
Proof.
  intros Hfree. unfold aggregate. rewrite !aggregateFrom_app.
  destruct (aggregateFrom tf orgname reponame ∅ before) as [e|r] eqn:Hb;
    [reflexivity|].
  cbn [bind aggregateFrom Login PermissionSources]. rewrite !scan_app.
  destruct (scan tf orgname reponame login (mkScan r false ∅) pre) as [e|st] eqn:Hp;
    [reflexivity|].
  specialize (Hfree r st eq_refl Hp).
  cbn [bind scan].
  destruct (step tf orgname reponame login st source) as [e|st1] eqn:Hs;
    [reflexivity|].
  cbn [bind]. now rewrite (step_again _ _ _ _ _ _ _ Hfree Hs).
Qed.

Lemma consecutive_duplicate_is_idempotent_witness :
  aggregate Sample.fullnames "ACME" "repo"
    ([mkEdge "dave" [Sample.team "core" PermREAD]]
     ++ mkEdge "erin" ([Sample.org "ACME" PermREAD]
                       ++ Sample.team "core" PermREAD
                          :: Sample.team "core" PermREAD
                          :: [Sample.repo "repo" PermADMIN]) :: [])
  = aggregate Sample.fullnames "ACME" "repo"
      ([mkEdge "dave" [Sample.team "core" PermREAD]]
       ++ mkEdge "erin" ([Sample.org "ACME" PermREAD]
                         ++ Sample.team "core" PermREAD
                            :: [Sample.repo "repo" PermADMIN]) :: []).
Proof.
  apply (consecutive_duplicate_is_idempotent Sample.fullnames "ACME" "repo"
           [mkEdge "dave" [Sample.team "core" PermREAD]] "erin"
           [Sample.org "ACME" PermREAD] (Sample.team "core" PermREAD)
           [Sample.repo "repo" PermADMIN] []).
  intros r st Hr Hst. vm_compute in Hr. injection Hr as <-.
  vm_compute in Hst. injection Hst as <-. reflexivity.
Defined.

(** C3 as stated fails for an org owner: the first user-level ADMIN is
    discarded, its repetition is merged. *)
Lemma duplicate_after_owner_bypass_differs :
  aggregate ∅ "ACME" "repo"
    [mkEdge "alice" [Sample.org "ACME" PermADMIN;
                     Sample.repo "repo" PermADMIN; Sample.repo "repo" PermADMIN]]
  <> aggregate ∅ "ACME" "repo"
       [mkEdge "alice" [Sample.org "ACME" PermADMIN; Sample.repo "repo" PermADMIN]].
Proof.
  intros H.
  apply (f_equal (fun res => match res with
                             | Ok m => m !! "user:alice"
                             | Err _ => None
                             end)) in H.
  vm_compute in H. discriminate.
Qed.

(** *** The ambient organization source and the owner bypass *)

Lemma ambient_key_is_ambient orgname : isAmbient orgname ("org:" +:+ orgname) = true.
Proof. now apply bool_decide_eq_true_2. Qed.

Lemma user_key_is_not_ambient orgname login :
  isAmbient orgname ("user:" +:+ login) = false.
Proof. apply bool_decide_eq_false_2, user_key_not_org. Qed.

(** C4: for the source list [(org:<queried org>, ADMIN), (user:<login>, ADMIN)]
    the scan skips the ambient source and raises [isOrgOwner], then
    discards the user-level ADMIN and records its key in
    [skippedSources]; the aggregated map is empty. *)
Theorem owner_bypass_suppresses_user_admin tf orgname reponame login s1 s2 :
  sourceKey tf login s1 = "org:" +:+ orgname ->
  sourceKey tf login s2 = "user:" +:+ login ->
  scan tf orgname reponame login (mkScan ∅ false ∅)
    [mkPermissionSource PermADMIN s1; mkPermissionSource PermADMIN s2]
  = Ok (mkScan ∅ true {[ "user:" +:+ login := true ]})
  /\ aggregate tf orgname reponame
       [mkEdge login [mkPermissionSource PermADMIN s1; mkPermissionSource PermADMIN s2]]
     = Ok ∅.
Proof.
  intros H1 H2.
  assert (Hscan : scan tf orgname reponame login (mkScan ∅ false ∅)
            [mkPermissionSource PermADMIN s1; mkPermissionSource PermADMIN s2]
          = Ok (mkScan ∅ true {[ "user:" +:+ login := true ]})).
  { cbn [scan]. unfold step at 1. cbn [Src Perm].
    rewrite H1, ambient_key_is_ambient.
    rewrite bool_decide_eq_true_2 by reflexivity. cbn [bind].
    unfold step. cbn [Src Perm]. rewrite H2, user_key_is_not_ambient.
    unfold ownerBypass, index. cbn [isOrgOwner skippedSources].
    rewrite lookup_empty. reflexivity. }
  split; [exact Hscan|].
  unfold aggregate. rewrite aggregateFrom_single, Hscan. reflexivity.
Qed.

Lemma owner_bypass_suppresses_user_admin_witness :
  scan ∅ "ACME" "repo" "alice" (mkScan ∅ false ∅)
    [mkPermissionSource PermADMIN (mkSource "ACME" "" "");
     mkPermissionSource PermADMIN (mkSource "" "repo" "")]
  = Ok (mkScan ∅ true {[ "user:" +:+ "alice" := true ]})
  /\ aggregate ∅ "ACME" "repo"
       [mkEdge "alice" [mkPermissionSource PermADMIN (mkSource "ACME" "" "");
                        mkPermissionSource PermADMIN (mkSource "" "repo" "")]]
     = Ok ∅.
Proof.
  apply (owner_bypass_suppresses_user_admin ∅ "ACME" "repo" "alice"
           (mkSource "ACME" "" "") (mkSource "" "repo" "")); reflexivity.
Defined.

(** C5: whatever the collaborators, their sources and the permission
    values, a map returned by [getCollaborators] has no entry under
    ["org:" + orgname]. *)
Theorem ambient_org_key_never_in_output tf orgname reponame resp r :
  getCollaborators tf orgname reponame resp = Ok r ->
  r !! ("org:" +:+ orgname) = None.
Proof.
  destruct resp as [e|edges]; simpl; [discriminate|].
  apply aggregateFrom_keeps_absent.
  - apply ambient_key_is_ambient.
  - apply lookup_empty.
Qed.

Lemma ambient_org_key_never_in_output_witness :
  ({[ "team:eng/core" := PermWRITE; "user:frank" := PermREAD ]}
     : gmap string Permission) !! ("org:" +:+ "ACME") = None.
Proof.
  apply (ambient_org_key_never_in_output Sample.fullnames "ACME" "repo"
           (Ok [mkEdge "frank" [Sample.org "ACME" PermREAD;
                                Sample.team "core" PermWRITE;
                                Sample.repo "repo" PermREAD];
                mkEdge "grace" [Sample.org "ACME" PermADMIN;
                                Sample.team "core" PermADMIN]])).
  vm_compute. reflexivity.
Defined.






Lemma bind_Ok {A B : Type} (r : result A) (k : A -> result B) b :
  bind r k = Ok b -> exists a, r = Ok a /\ k a = Ok b.
Proof. destruct r as [e|a]; simpl; [discriminate|eauto]. Qed.












(** The owner's repeated ADMIN, end to end: the first is dropped, the
    second is stored. *)
Lemma owner_repeated_admin_is_merged :
  aggregate Sample.fullnames "ACME" "repo"
    [mkEdge "heidi" [Sample.org "ACME" PermADMIN;
                     Sample.team "core" PermADMIN; Sample.team "core" PermADMIN]]
  = Ok {[ "team:eng/core" := PermADMIN ]}.
Proof. vm_compute. reflexivity. Qed.

(** *** Team slugs without a full name *)

(** C10: a team-tagged source whose slug has no entry in [teamFullnames]
    gets the key ["team:"]; two such sources with different slugs meet
    under that key, where they are merged (equal values, or WRITE with
    ADMIN) or reported as a mismatch. *)
Theorem unknown_team_slugs_collide tf orgname reponame login t1 t2 r1 r2 p1 p2 :
  t1 <> "" -> t2 <> "" -> t1 <> t2 ->
  tf !! t1 = None -> tf !! t2 = None ->
  sourceKey tf login (mkSource "" r1 t1) = "team:"
  /\ sourceKey tf login (mkSource "" r2 t2) = "team:"
  /\ aggregate tf orgname reponame
       [mkEdge login [mkPermissionSource p1 (mkSource "" r1 t1);
                      mkPermissionSource p2 (mkSource "" r2 t2)]]
     = if bool_decide (p1 = p2) then Ok {[ "team:" := p1 ]}
       else if bool_decide ((p1 = PermWRITE /\ p2 = PermADMIN)
                            \/ (p1 = PermADMIN /\ p2 = PermWRITE))
            then Ok {[ "team:" := PermADMIN ]}
            else Err (Mismatch reponame "team:" p1 p2).
Proof.
  intros Ht1 Ht2 _ Hn1 Hn2.
  assert (Hk1 : sourceKey tf login (mkSource "" r1 t1) = "team:").
  { rewrite team_source_key by assumption. unfold index. now rewrite Hn1. }
  assert (Hk2 : sourceKey tf login (mkSource "" r2 t2) = "team:").
  { rewrite team_source_key by assumption. unfold index. now rewrite Hn2. }
  split; [exact Hk1|]. split; [exact Hk2|].
  assert (Hamb : isAmbient orgname "team:" = false).
  { now apply team_key_not_ambient. }
  unfold aggregate. rewrite aggregateFrom_single. cbn [scan].
  rewrite step_non_owner by (cbn [Src]; rewrite ?Hk1; auto).
  cbn [Src Perm]. rewrite Hk1. unfold merge at 1. cbn [ret].
  rewrite lookup_empty. cbn [bind].
  rewrite step_non_owner by (cbn [Src]; rewrite ?Hk2; auto).
  cbn [Src Perm]. rewrite Hk2.
  destruct p1, p2; vm_compute; reflexivity.
Qed.

Lemma unknown_team_slugs_collide_witness :
  sourceKey Sample.fullnames "ivan" (mkSource "" "" "ghost") = "team:"
  /\ sourceKey Sample.fullnames "ivan" (mkSource "" "" "phantom") = "team:"
  /\ aggregate Sample.fullnames "ACME" "repo"
       [mkEdge "ivan" [mkPermissionSource PermREAD (mkSource "" "" "ghost");
                       mkPermissionSource PermWRITE (mkSource "" "" "phantom")]]
     = Err (Mismatch "repo" "team:" PermREAD PermWRITE).
Proof.
  apply (unknown_team_slugs_collide Sample.fullnames "ACME" "repo" "ivan"
           "ghost" "phantom" "" "" PermREAD PermWRITE);
    first [discriminate | reflexivity].
Defined.

(** ** The team hierarchy *)

Section TeamFacts.

(** *** What the fetch phase collects *)

Lemma collect_slugs nodes : forall acc,
  (fold_left collectTeam nodes acc).1 = acc.1 ++ (Slug <$> nodes).
Proof.
  induction nodes as [|t nodes IH]; intros acc; simpl.
  - now rewrite app_nil_r.
  - rewrite IH. simpl. now rewrite <- app_assoc.
Qed.

Lemma collect_parents_other nodes slug : forall acc,
  slug ∉ Slug <$> nodes ->
  (fold_left collectTeam nodes acc).2 !! slug = acc.2 !! slug.
Proof.
  induction nodes as [|t nodes IH]; intros acc Hnot; simpl; [reflexivity|].
  rewrite fmap_cons in Hnot. apply not_elem_of_cons in Hnot as [Hne Hnot].
  rewrite IH by assumption. simpl.
  destruct (ParentTeam t); [now rewrite lookup_insert_ne|reflexivity].
Qed.

Lemma collect_parents_member nodes : forall acc t,
  NoDup (Slug <$> nodes) ->
  t ∈ nodes ->
  (fold_left collectTeam nodes acc).2 !! Slug t
  = match ParentTeam t with
    | Some parent => Some parent
    | None => acc.2 !! Slug t
    end.
Proof.
  induction nodes as [|u nodes IH]; intros acc t Hnd Hin; [inversion Hin|].
  rewrite fmap_cons in Hnd. apply NoDup_cons in Hnd as [Hfresh Hnd].
  apply elem_of_cons in Hin as [->|Hin]; simpl.
  - rewrite collect_parents_other by assumption. simpl.
    destruct (ParentTeam u); [apply lookup_insert_eq|reflexivity].
  - rewrite (IH _ t Hnd Hin).
    destruct (ParentTeam t); [reflexivity|]. simpl.
    destruct (ParentTeam u); [|reflexivity].
    apply lookup_insert_ne. intros Heq. apply Hfresh. rewrite Heq.
    now apply list_elem_of_fmap_2.
Qed.

Lemma collect_parents_known nodes slug parent : forall acc,
  (fold_left collectTeam nodes acc).2 !! slug = Some parent ->
  slug ∈ Slug <$> nodes \/ acc.2 !! slug = Some parent.
Proof.
  induction nodes as [|t nodes IH]; intros acc H; simpl in *; [now right|].
  apply IH in H as [H|H]; [left; now apply list_elem_of_further|].
  simpl in H. destruct (ParentTeam t); [|now right].
  destruct (decide (Slug t = slug)) as [<-|Hne].
  - left. apply list_elem_of_here.
  - rewrite lookup_insert_ne in H by assumption. now right.
Qed.

Lemma no_parent_recorded nodes slug :
  NoDup (Slug <$> nodes) ->
  mkTeam slug None ∈ nodes ->
  teamParentsOf nodes !! slug = None.
Proof.
  intros Hnd Hin. unfold teamParentsOf.
  now rewrite (collect_parents_member nodes ([], ∅) _ Hnd Hin).
Qed.

Lemma parent_recorded nodes slug parent :
  NoDup (Slug <$> nodes) ->
  mkTeam slug (Some parent) ∈ nodes ->
  teamParentsOf nodes !! slug = Some parent.
Proof.
  intros Hnd Hin. unfold teamParentsOf.
  now rewrite (collect_parents_member nodes ([], ∅) _ Hnd Hin).
Qed.

Lemma recorded_parent_has_slug nodes slug parent :
  teamParentsOf nodes !! slug = Some parent ->
  slug ∈ teamSlugsOf nodes.
Proof.
  intros H. unfold teamSlugsOf. rewrite collect_slugs. simpl.
  apply collect_parents_known in H as [H|H]; [exact H|].
  simpl in H. now rewrite lookup_empty in H.
Qed.

(** *** The walk *)

Lemma walk_done fuel teamParents full : walk fuel teamParents "" full = Some full.
Proof. now destruct fuel. Qed.

Lemma walk_root fuel teamParents tip full :
  index "" teamParents tip = "" ->
  walk (S fuel) teamParents tip full = Some full.
Proof.
  intros H. simpl. rewrite H. case_bool_decide; [apply walk_done|reflexivity].
Qed.

Lemma walk_up fuel teamParents tip parent full :
  tip <> "" ->
  teamParents !! tip = Some parent ->
  parent <> "" ->
  walk (S fuel) teamParents tip full
  = walk fuel teamParents parent (parent +:+ "/" +:+ full).
Proof.
  intros Ht Hp Hne. simpl. unfold index. rewrite Hp. simpl.
  now rewrite !bool_decide_eq_true_2 by assumption.
Qed.

Lemma walk_S fuel teamParents tip full :
  walk (S fuel) teamParents tip full
  = if bool_decide (tip <> "") then
      walk fuel teamParents (index "" teamParents tip)
        (if bool_decide (index "" teamParents tip <> "")
         then index "" teamParents tip +:+ "/" +:+ full else full)
    else Some full.
Proof. reflexivity. Qed.

Lemma walk_more fuel : forall teamParents tip full out,
  walk fuel teamParents tip full = Some out ->
  walk (S fuel) teamParents tip full = Some out.
Proof.
  induction fuel as [|fuel IH]; intros teamParents tip full out H.
  - simpl in *. case_bool_decide; [discriminate|exact H].
  - rewrite walk_S in H. rewrite walk_S.
    case_bool_decide; [now apply IH|exact H].
Qed.

Lemma walk_mono fuel fuel' teamParents tip full out :
  fuel <= fuel' ->
  walk fuel teamParents tip full = Some out ->
  walk fuel' teamParents tip full = Some out.
Proof.
  induction 1 as [|fuel' _ IH]; [auto|]. intros H. now apply walk_more, IH.
Qed.

Lemma walk_functional fuel fuel' teamParents tip full out out' :
  walk fuel teamParents tip full = Some out ->
  walk fuel' teamParents tip full = Some out' ->
  out = out'.
Proof.
  intros H H'.
  apply (walk_mono _ (max fuel fuel')) in H; [|lia].
  apply (walk_mono _ (max fuel fuel')) in H'; [|lia].
  congruence.
Qed.

(** *** The second loop *)

Lemma resolveAll_entries fuel teamParents teamSlugs : forall acc m,
  resolveAll fuel teamParents teamSlugs acc = Some m ->
  forall slug,
    (slug ∈ teamSlugs
     /\ exists full, walk fuel teamParents slug slug = Some full /\ m !! slug = Some full)
    \/ ((slug ∉ teamSlugs) /\ m !! slug = acc !! slug).
Proof.
  induction teamSlugs as [|s rest IH]; intros acc m H slug; simpl in H.
  - injection H as <-. right. split; [apply not_elem_of_nil|reflexivity].
  - destruct (walk fuel teamParents s s) as [full|] eqn:Hw; [|discriminate].
    destruct (IH _ _ H slug) as [[Hin Hex]|[Hnot Hm]].
    + left. split; [now apply list_elem_of_further|exact Hex].
    + destruct (decide (slug = s)) as [->|Hne].
      * left. split; [apply list_elem_of_here|].
        exists full. split; [exact Hw|]. rewrite Hm. apply lookup_insert_eq.
      * right. split.
        -- apply not_elem_of_cons. auto.
        -- rewrite Hm. now apply lookup_insert_ne.
Qed.

Lemma resolveAll_returns fuel teamParents teamSlugs : forall acc,
  (forall slug, slug ∈ teamSlugs -> is_Some (walk fuel teamParents slug slug)) ->
  is_Some (resolveAll fuel teamParents teamSlugs acc).
Proof.
  induction teamSlugs as [|s rest IH]; intros acc Hall; simpl; [eauto|].
  destruct (Hall s (list_elem_of_here _ _)) as [full ->].
  apply IH. intros slug Hin. apply Hall. now apply list_elem_of_further.
Qed.

Lemma resolveAll_stuck fuel teamParents teamSlugs slug : forall acc,
  slug ∈ teamSlugs ->
  walk fuel teamParents slug slug = None ->
  resolveAll fuel teamParents teamSlugs acc = None.
Proof.
  induction teamSlugs as [|s rest IH]; intros acc Hin Hw; [inversion Hin|].
  simpl. apply elem_of_cons in Hin as [->|Hin].
  - now rewrite Hw.
  - destruct (walk fuel teamParents s s); [now apply IH|reflexivity].
Qed.

Lemma resolveTeams_unfold fuel nodes :
  resolveTeams fuel nodes
  = resolveAll fuel (teamParentsOf nodes) (teamSlugsOf nodes) ∅.
Proof.
  unfold resolveTeams, teamParentsOf, teamSlugsOf.
  now destruct (fold_left collectTeam nodes ([], ∅)).
Qed.

Lemma resolveTeams_entry fuel nodes m t :
  resolveTeams fuel nodes = Some m ->
  t ∈ nodes ->
  exists full,
    walk fuel (teamParentsOf nodes) (Slug t) (Slug t) = Some full
    /\ m !! Slug t = Some full.
Proof.
  rewrite resolveTeams_unfold. intros H Hin.
  destruct (resolveAll_entries _ _ _ _ _ H (Slug t)) as [[_ Hex]|[Hnot _]];
    [exact Hex|].
  exfalso. apply Hnot. unfold teamSlugsOf. rewrite collect_slugs. simpl.
  now apply list_elem_of_fmap_2.
Qed.

End TeamFacts.

(** *** Termination of the walk *)

Section WalkTermination.
Variable teamParents : gmap string string.

Local Abbreviation edge := (parentEdge teamParents).

Lemma edge_target_nonempty a b : tc edge a b -> b <> "".
Proof. induction 1 as [? ? [_ ?]|]; auto. Qed.

(** A slug on a cycle has a recorded parent that is on a cycle too. *)
Lemma cycle_moves_up slug :
  tc edge slug slug ->
  exists parent,
    teamParents !! slug = Some parent /\ parent <> "" /\ tc edge parent parent.
Proof.
  intros H.
  inversion H as [? ? [Hl Hne]|? parent ? [Hl Hne] Hrest]; subst.
  - exists slug. auto.
  - exists parent. repeat split; auto.
    eapply tc_r; [exact Hrest|]. split; auto.
Qed.

Lemma walk_on_cycle fuel : forall slug full,
  tc edge slug slug ->
  walk fuel teamParents slug full = None.
Proof.
  induction fuel as [|fuel IH]; intros slug full Hc.
  - simpl. rewrite bool_decide_eq_true_2; [reflexivity|].
    eapply edge_target_nonempty; eauto.
  - destruct (cycle_moves_up _ Hc) as (parent & Hl & Hne & Hc').
    rewrite (walk_up _ _ _ parent); auto.
    eapply edge_target_nonempty; eauto.
Qed.

(** The slugs passed so far are distinct members of the map's domain,
    so an acyclic walk takes at most [size teamParents] upward steps. *)
Lemma walk_terminates_from fuel : forall (visited : gset string) tip full,
  acyclic teamParents ->
  visited ⊆ dom teamParents ->
  (forall x, x ∈ visited -> tc edge x tip) ->
  size (dom teamParents) - size visited < fuel ->
  is_Some (walk fuel teamParents tip full).
Proof.
  induction fuel as [|fuel IH]; intros visited tip full Hacyc Hsub Hreach Hfuel;
    [lia|].
  rewrite walk_S. case_bool_decide as Htip; [|eauto].
  unfold index. destruct (teamParents !! tip) as [parent|] eqn:Hp; simpl.
  - case_bool_decide as Hne.
    + assert (Hfresh : tip ∉ visited).
      { intros Hin. exact (Hacyc tip (Hreach tip Hin)). }
      assert (Hsub' : {[tip]} ∪ visited ⊆ dom teamParents).
      { apply union_subseteq. split; [|exact Hsub].
        apply singleton_subseteq_l, elem_of_dom. eauto. }
      pose proof (subseteq_size _ _ Hsub') as Hsize.
      rewrite size_union, size_singleton in Hsize by set_solver.
      apply (IH ({[tip]} ∪ visited)); auto.
      * intros x Hx. apply elem_of_union in Hx as [Hx|Hx].
        -- apply elem_of_singleton in Hx as ->. apply tc_once. split; auto.
        -- eapply tc_r; [apply Hreach; exact Hx|]. split; auto.
      * rewrite size_union, size_singleton by set_solver. lia.
    + destruct (decide (parent = "")) as [->|Hne']; [|contradiction].
      rewrite walk_done. eauto.
  - rewrite walk_done. eauto.
Qed.

Lemma walk_terminates fuel tip full :
  acyclic teamParents ->
  size teamParents < fuel ->
  is_Some (walk fuel teamParents tip full).
Proof.
  intros Hacyc Hfuel. apply (walk_terminates_from fuel ∅); auto.
  - set_solver.
  - set_solver.
  - rewrite size_dom, size_empty. lia.
Qed.

(** A way to see that a given map is acyclic: slugs can be ranked so
    that every parent ranks below its child. *)
Lemma ranked_is_acyclic (rank : string -> nat) :
  (forall slug parent, edge slug parent -> rank parent < rank slug) ->
  acyclic teamParents.
Proof.
  intros Hrank.
  assert (Hlt : forall a b, tc edge a b -> rank b < rank a).
  { induction 1 as [a b H|a b c H _ IH]; [auto|]. apply Hrank in H. lia. }
  intros slug Hc. apply Hlt in Hc. lia.
Qed.

End WalkTermination.

(** *** Full paths *)

(** C7: in a team set with unique slugs, a team without a parent is
    mapped to its own slug, and the last team of a chain
    root -> P1 -> P2 -> T of teams of the set (non-empty slugs) is mapped
    to [root/P1/P2/T].  Both are stated for the walk of that team (it
    ends within one, respectively four, iterations) and for the entry
    of the map the resolver returns. *)
Theorem team_full_paths :
  (forall nodes slug n,
     NoDup (Slug <$> nodes) ->
     mkTeam slug None ∈ nodes ->
     walk (S n) (teamParentsOf nodes) slug slug = Some slug)
  /\ (forall nodes slug fuel m,
        NoDup (Slug <$> nodes) ->
        mkTeam slug None ∈ nodes ->
        resolveTeams fuel nodes = Some m ->
        m !! slug = Some slug)
  /\ (forall nodes root P1 P2 T n,
        NoDup (Slug <$> nodes) ->
        root <> "" -> P1 <> "" -> P2 <> "" -> T <> "" ->
        mkTeam root None ∈ nodes ->
        mkTeam P1 (Some root) ∈ nodes ->
        mkTeam P2 (Some P1) ∈ nodes ->
        mkTeam T (Some P2) ∈ nodes ->
        walk (4 + n) (teamParentsOf nodes) T T
        = Some (root +:+ "/" +:+ P1 +:+ "/" +:+ P2 +:+ "/" +:+ T))
  /\ (forall nodes root P1 P2 T fuel m,
        NoDup (Slug <$> nodes) ->
        root <> "" -> P1 <> "" -> P2 <> "" -> T <> "" ->
        mkTeam root None ∈ nodes ->
        mkTeam P1 (Some root) ∈ nodes ->
        mkTeam P2 (Some P1) ∈ nodes ->
        mkTeam T (Some P2) ∈ nodes ->
        resolveTeams fuel nodes = Some m ->
        m !! T = Some (root +:+ "/" +:+ P1 +:+ "/" +:+ P2 +:+ "/" +:+ T)).
Proof.
  assert (Hlone : forall nodes slug n,
            NoDup (Slug <$> nodes) -> mkTeam slug None ∈ nodes ->
            walk (S n) (teamParentsOf nodes) slug slug = Some slug).
  { intros nodes slug n Hnd Hin. apply walk_root. unfold index.
    now rewrite (no_parent_recorded _ _ Hnd Hin). }
  assert (Hchain : forall nodes root P1 P2 T n,
            NoDup (Slug <$> nodes) ->
            root <> "" -> P1 <> "" -> P2 <> "" -> T <> "" ->
            mkTeam root None ∈ nodes ->
            mkTeam P1 (Some root) ∈ nodes ->
            mkTeam P2 (Some P1) ∈ nodes ->
            mkTeam T (Some P2) ∈ nodes ->
            walk (4 + n) (teamParentsOf nodes) T T
            = Some (root +:+ "/" +:+ P1 +:+ "/" +:+ P2 +:+ "/" +:+ T)).
  { intros nodes root P1 P2 T n Hnd Hr H1 H2 HT Hinr Hin1 Hin2 HinT.
    change (4 + n) with (S (S (S (S n)))).
    rewrite (walk_up _ _ T P2) by eauto using parent_recorded.
    rewrite (walk_up _ _ P2 P1) by eauto using parent_recorded.
    rewrite (walk_up _ _ P1 root) by eauto using parent_recorded.
    rewrite walk_root; [reflexivity|].
    unfold index. now rewrite (no_parent_recorded _ _ Hnd Hinr). }
  split; [exact Hlone|]. split; [|split; [exact Hchain|]].
  - intros nodes slug fuel m Hnd Hin Hm.
    destruct (resolveTeams_entry _ _ _ _ Hm Hin) as (full & Hw & Hl). cbn [Slug] in Hw, Hl.
    rewrite Hl. f_equal.
    exact (walk_functional _ _ _ _ _ _ _ Hw (Hlone nodes slug 0 Hnd Hin)).
  - intros nodes root P1 P2 T fuel m Hnd Hr H1 H2 HT Hinr Hin1 Hin2 HinT Hm.
    destruct (resolveTeams_entry _ _ _ _ Hm HinT) as (full & Hw & Hl). cbn [Slug] in Hw, Hl.
    rewrite Hl. f_equal.
    exact (walk_functional _ _ _ _ _ _ _ Hw
             (Hchain nodes root P1 P2 T 0 Hnd Hr H1 H2 HT Hinr Hin1 Hin2 HinT)).
Qed.

Lemma sample_chain_slugs_unique : NoDup (Slug <$> Sample.chain).
Proof. apply (bool_decide_unpack _). vm_compute. exact I. Qed.

Lemma team_full_paths_witness :
  walk 1 (teamParentsOf Sample.chain) "eng" "eng" = Some "eng"
  /\ walk 4 (teamParentsOf Sample.chain) "oncall" "oncall"
     = Some "eng/platform/infra/oncall"
  /\ (resolveTeams 6 Sample.chain ≫= lookup "eng") = Some "eng"
  /\ (resolveTeams 6 Sample.chain ≫= lookup "oncall")
     = Some "eng/platform/infra/oncall".
Proof.
  destruct team_full_paths as (Hlone & Hmap & Hchain & Hchainmap).
  assert (Hres : exists m, resolveTeams 6 Sample.chain = Some m).
  { eexists. vm_compute. reflexivity. }
  destruct Hres as [m Hm].
  split; [|split; [|split]].
  - apply (Hlone Sample.chain "eng" 0 sample_chain_slugs_unique).
    apply list_elem_of_here.
  - apply (Hchain Sample.chain "eng" "platform" "infra" "oncall" 0
             sample_chain_slugs_unique); try discriminate;
      repeat first [apply list_elem_of_here | apply list_elem_of_further].
  - rewrite Hm. simpl.
    apply (Hmap Sample.chain "eng" 6 m sample_chain_slugs_unique);
      [apply list_elem_of_here | exact Hm].
  - rewrite Hm. simpl.
    apply (Hchainmap Sample.chain "eng" "platform" "infra" "oncall" 6 m
             sample_chain_slugs_unique); try discriminate; try exact Hm;
      repeat first [apply list_elem_of_here | apply list_elem_of_further].
Defined.

(** ** Pagination *)

Section PagingFacts.
Context {N A : Type}.
Variable body : A -> N -> A.

Lemma pageLoop_stop script cursor acc sent :
  pageLoop body script (Some cursor) false acc sent = (Returned (Ok acc), sent).
Proof. now destruct script. Qed.

Lemma pageLoop_fetch page script cursor more acc sent :
  bool_decide (cursor = None) || more = true ->
  pageLoop body (Ok page :: script) cursor more acc sent
  = pageLoop body script (nextCursor page) (HasNextPage (Info page))
      (fold_left body (Nodes page) acc) (sent ++ [cursor]).
Proof. intros H. simpl. now rewrite H. Qed.

Lemma pageLoop_fail e script cursor more acc sent :
  bool_decide (cursor = None) || more = true ->
  pageLoop body (Err e :: script) cursor more acc sent
  = (Returned (Err e), sent ++ [cursor]).
Proof. intros H. simpl. now rewrite H. Qed.

Lemma pageLoop_pages init : forall last rest cursor more acc sent,
  bool_decide (cursor = None) || more = true ->
  Forall hasNext init ->
  HasNextPage (Info last) = false ->
  pageLoop body ((Ok <$> init ++ [last]) ++ rest) cursor more acc sent
  = (Returned (Ok (fold_left body (allNodes (init ++ [last])) acc)),
     sent ++ cursor :: (nextCursor <$> init)).
Proof.
  unfold allNodes.
  induction init as [|page init IH];
    intros last rest cursor more acc sent Hgo Hall Hlast.
  - cbn [app fmap list_fmap concat]. rewrite pageLoop_fetch by assumption.
    rewrite Hlast. unfold nextCursor. rewrite pageLoop_stop.
    now rewrite app_nil_r.
  - inversion Hall as [|? ? Hpage Hall']; subst.
    cbn [app fmap list_fmap concat]. rewrite pageLoop_fetch by assumption.
    change (list_fmap _ _ Ok (init ++ [last])) with (Ok <$> init ++ [last]).
    change (list_fmap _ _ Nodes (init ++ [last])) with (Nodes <$> init ++ [last]).
    rewrite IH; auto.
    rewrite fold_left_app, <- app_assoc. reflexivity.
Qed.

Lemma pageLoop_error init : forall e rest cursor more acc sent,
  bool_decide (cursor = None) || more = true ->
  Forall hasNext init ->
  pageLoop body ((Ok <$> init) ++ Err e :: rest) cursor more acc sent
  = (Returned (Err e), sent ++ cursor :: (nextCursor <$> init)).
Proof.
  induction init as [|page init IH]; intros e rest cursor more acc sent Hgo Hall.
  - cbn [app fmap list_fmap]. now rewrite pageLoop_fail.
  - inversion Hall as [|? ? Hpage Hall']; subst.
    cbn [app fmap list_fmap]. rewrite pageLoop_fetch by assumption.
    change (list_fmap _ _ Ok init) with (Ok <$> init).
    rewrite IH; auto.
    rewrite <- app_assoc. reflexivity.
Qed.

End PagingFacts.

Lemma allNodes_length {N : Type} (pages : list (Page N)) :
  length (allNodes pages) = list_sum (pageSizes pages).
Proof.
  unfold allNodes, pageSizes. induction pages as [|page pages IH]; [reflexivity|].
  cbn [fmap list_fmap concat list_sum fold_right]. rewrite length_app.
  f_equal. exact IH.
Qed.

Lemma keepRepo_fold nodes : forall repos,
  fold_left keepRepo nodes repos
  = repos ++ ((fun r => mkRepoHandle (Name r) (URL r))
                <$> filter (fun r => IsArchived r = false) nodes).
Proof.
  induction nodes as [|r nodes IH]; intros repos; simpl.
  - now rewrite app_nil_r.
  - rewrite IH. unfold keepRepo. rewrite filter_cons.
    destruct (IsArchived r) eqn:Harch.
    + now rewrite decide_False by discriminate.
    + rewrite decide_True by reflexivity. rewrite fmap_cons.
      now rewrite <- app_assoc.
Qed.

Lemma getRepos_pages init last rest :
  Forall hasNext init ->
  HasNextPage (Info last) = false ->
  getRepos ((Ok <$> init ++ [last]) ++ rest)
  = (Returned (Ok ((fun r => mkRepoHandle (Name r) (URL r))
                     <$> filter (fun r => IsArchived r = false)
                           (allNodes (init ++ [last])))),
     None :: (nextCursor <$> init)).
Proof.
  intros Hall Hlast. unfold getRepos, paginate.
  rewrite pageLoop_pages by auto. now rewrite keepRepo_fold.
Qed.

Lemma getTeamFullnames_pages fuel init last rest :
  Forall hasNext init ->
  HasNextPage (Info last) = false ->
  getTeamFullnames fuel ((Ok <$> init ++ [last]) ++ rest)
  = (match resolveTeams fuel (allNodes (init ++ [last])) with
     | Some teamFullnames => Returned (Ok teamFullnames)
     | None => OutOfFuel
     end,
     None :: (nextCursor <$> init)).
Proof.
  intros Hall Hlast. unfold getTeamFullnames, paginate, resolveTeams.
  rewrite pageLoop_pages by auto.
  now destruct (fold_left collectTeam (allNodes (init ++ [last])) ([], ∅)).
Qed.

(** C9: over pages of which only the last says [hasNextPage = false],
    the loop makes one call per page (the first without a cursor, each
    later one with the end cursor of the page before), hands the nodes to
    the loop body in page order, within a page in the order received, and
    returns after the last page even when the transport has more to give;
    the nodes number the sum of the page sizes.  If a call fails after
    some pages that all announced a next page, that error is returned at
    once, in place of any value, and no further call is made. *)
Theorem pagination_traversal :
  (forall (N A : Type) (body : A -> N -> A) init last rest acc,
     Forall hasNext init ->
     HasNextPage (Info last) = false ->
     let pages := init ++ [last] in
     let run := paginate body ((Ok <$> pages) ++ rest) acc in
     run.1 = Returned (Ok (fold_left body (allNodes pages) acc))
     /\ run.2 = None :: (nextCursor <$> init)
     /\ length run.2 = length pages
     /\ length (allNodes pages) = list_sum (pageSizes pages))
  /\ (forall init last rest,
        Forall hasNext init ->
        HasNextPage (Info last) = false ->
        let pages := init ++ [last] in
        exists teamParents,
          (paginate collectTeam ((Ok <$> pages) ++ rest) ([], ∅)).1
          = Returned (Ok (Slug <$> allNodes pages, teamParents)))
  /\ (forall (N A : Type) (body : A -> N -> A) init e rest acc,
        Forall hasNext init ->
        let run := paginate body ((Ok <$> init) ++ Err e :: rest) acc in
        run.1 = Returned (Err e)
        /\ run.2 = None :: (nextCursor <$> init)
        /\ length run.2 = S (length init)).
Proof.
  split; [|split].
  - intros N A body init last rest acc Hall Hlast pages run.
    unfold run, pages, paginate. rewrite pageLoop_pages by auto. simpl.
    repeat split.
    + now rewrite length_fmap, length_app, Nat.add_comm.
    + apply allNodes_length.
  - intros init last rest Hall Hlast pages.
    unfold pages, paginate. rewrite pageLoop_pages by auto. simpl.
    exists (fold_left collectTeam (allNodes (init ++ [last])) ([], ∅)).2.
    do 2 f_equal. apply injective_projections; [|reflexivity].
    now rewrite collect_slugs.
  - intros N A body init e rest acc Hall run.
    unfold run, paginate. rewrite pageLoop_error by auto. simpl.
    repeat split. now rewrite length_fmap.
Qed.

Lemma pagination_traversal_witness :
  getRepos (Ok <$> [Sample.firstPage; Sample.secondPage; Sample.lastPage])
  = (Returned (Ok [mkRepoHandle "api" "https://example.org/api";
                   mkRepoHandle "web" "https://example.org/web"]),
     [None; Some "c1"; Some "c2"])
  /\ (paginate keepRepo
        (Ok <$> [Sample.firstPage; Sample.secondPage; Sample.lastPage]) []).1
     = Returned (Ok (fold_left keepRepo
                       (allNodes [Sample.firstPage; Sample.secondPage;
                                  Sample.lastPage]) [])).
Proof.
  split; [vm_compute; reflexivity|].
  destruct pagination_traversal as (Hok & _ & _).
  destruct (Hok RepoNode (list RepoHandle) keepRepo
              [Sample.firstPage; Sample.secondPage] Sample.lastPage [] [])
    as (Hres & _).
  - apply Forall_cons_2; [reflexivity|].
    apply Forall_cons_2; [reflexivity|]. apply Forall_nil_2.
  - reflexivity.
  - exact Hres.
Defined.

(** ** Termination of the resolver, and its absence *)

Lemma resolveTeams_returns nodes fuel :
  acyclic (teamParentsOf nodes) ->
  size (teamParentsOf nodes) < fuel ->
  is_Some (resolveTeams fuel nodes).
Proof.
  intros Hacyc Hfuel. rewrite resolveTeams_unfold.
  apply resolveAll_returns. intros slug _. now apply walk_terminates.
Qed.

Lemma resolveTeams_diverges nodes slug fuel :
  tc (parentEdge (teamParentsOf nodes)) slug slug ->
  resolveTeams fuel nodes = None.
Proof.
  intros Hc. rewrite resolveTeams_unfold.
  destruct (cycle_moves_up _ _ Hc) as (parent & Hl & _ & _).
  apply (resolveAll_stuck _ _ _ slug).
  - eapply recorded_parent_has_slug; eauto.
  - now apply walk_on_cycle.
Qed.

(** C8: when no slug reaches itself by following recorded parents, every
    walk ends within [size teamParents + 1] iterations, wherever it
    starts and also when it runs into a parent slug that was never
    fetched (that slug is prepended and the walk ends there, without an
    error), and the resolver returns.  When a slug does reach itself, no
    number of iterations ends the walk from it, and neither the resolver
    nor [getTeamFullnames] returns: nothing in the loop bounds it. *)
Theorem parent_walk_termination :
  (forall teamParents tip full fuel,
     acyclic teamParents ->
     size teamParents < fuel ->
     is_Some (walk fuel teamParents tip full))
  /\ (forall teamParents tip parent full n,
        tip <> "" ->
        teamParents !! tip = Some parent ->
        parent <> "" ->
        teamParents !! parent = None ->
        walk (2 + n) teamParents tip full = Some (parent +:+ "/" +:+ full))
  /\ (forall nodes fuel,
        acyclic (teamParentsOf nodes) ->
        size (teamParentsOf nodes) < fuel ->
        is_Some (resolveTeams fuel nodes))
  /\ (forall init last rest fuel,
        Forall hasNext init ->
        HasNextPage (Info last) = false ->
        acyclic (teamParentsOf (allNodes (init ++ [last]))) ->
        size (teamParentsOf (allNodes (init ++ [last]))) < fuel ->
        exists teamFullnames,
          (getTeamFullnames fuel ((Ok <$> init ++ [last]) ++ rest)).1
          = Returned (Ok teamFullnames))
  /\ (forall teamParents slug,
        tc (parentEdge teamParents) slug slug ->
        forall fuel full, walk fuel teamParents slug full = None)
  /\ (forall nodes slug,
        tc (parentEdge (teamParentsOf nodes)) slug slug ->
        forall fuel, resolveTeams fuel nodes = None)
  /\ (forall init last rest slug,
        Forall hasNext init ->
        HasNextPage (Info last) = false ->
        tc (parentEdge (teamParentsOf (allNodes (init ++ [last])))) slug slug ->
        forall fuel,
          (getTeamFullnames fuel ((Ok <$> init ++ [last]) ++ rest)).1 = OutOfFuel).
Proof.
  repeat apply conj.
  - intros. now apply walk_terminates.
  - intros teamParents tip parent full n Ht Hp Hne Habsent.
    change (2 + n) with (S (S n)).
    rewrite (walk_up _ _ _ parent) by assumption.
    apply walk_root. unfold index. now rewrite Habsent.
  - intros. now apply resolveTeams_returns.
  - intros init last rest fuel Hall Hlast Hacyc Hfuel.
    rewrite getTeamFullnames_pages by assumption.
    destruct (resolveTeams_returns _ _ Hacyc Hfuel) as [m ->]. now exists m.
  - intros. now apply walk_on_cycle.
  - intros. now apply (resolveTeams_diverges _ slug).
  - intros init last rest slug Hall Hlast Hc fuel.
    rewrite getTeamFullnames_pages by assumption.
    now rewrite (resolveTeams_diverges _ slug).
Qed.

Lemma sample_chain_parents :
  teamParentsOf Sample.chain
  = <["guests" := "partners"]> (<["oncall" := "infra"]>
      (<["infra" := "platform"]> (<["platform" := "eng"]> ∅))).
Proof. reflexivity. Qed.

Lemma sample_chain_acyclic : acyclic (teamParentsOf Sample.chain).
Proof.
  apply (ranked_is_acyclic _ (fun slug =>
           if String.eqb slug "platform" then 1
           else if String.eqb slug "infra" then 2
           else if String.eqb slug "oncall" then 3
           else if String.eqb slug "guests" then 1
           else 0)).
  intros slug parent [Hl _]. rewrite sample_chain_parents in Hl.
  repeat (apply lookup_insert_Some in Hl as [[<- <-]|[_ Hl]];
          [vm_compute; lia|]).
  now rewrite lookup_empty in Hl.
Qed.

Lemma sample_loop_cycle : tc (parentEdge (teamParentsOf Sample.loop)) "a" "a".
Proof.
  apply (tc_l _ _ "b"); [|apply tc_once]; split; first [reflexivity|discriminate].
Qed.

Lemma parent_walk_termination_witness :
  is_Some (walk 5 (teamParentsOf Sample.chain) "oncall" "oncall")
  /\ walk 2 (teamParentsOf Sample.chain) "guests" "guests" = Some "partners/guests"
  /\ is_Some (resolveTeams 5 Sample.chain)
  /\ walk 1000 (teamParentsOf Sample.loop) "a" "a" = None
  /\ resolveTeams 1000 Sample.loop = None.
Proof.
  destruct parent_walk_termination
    as (Hwalk & Habsent & Hres & _ & Hcyc & Hdiv & _).
  repeat apply conj.
  - apply Hwalk; [apply sample_chain_acyclic | vm_compute; lia].
  - apply (Habsent _ "guests" "partners" "guests" 0);
      first [discriminate | reflexivity].
  - apply Hres; [apply sample_chain_acyclic | vm_compute; lia].
  - apply Hcyc, sample_loop_cycle.
  - apply (Hdiv _ "a"), sample_loop_cycle.
Defined.

(** ** More on the aggregator *)

Section Provenance.
Variable tf : gmap string string.
Variables orgname reponame : string.

(** [Q] holds of every entry of the map. *)
Local Abbreviation entries Q r :=
  (forall (k : string) (v : Permission), r !! k = Some v -> Q k v).

Lemma merge_entries (Q : string -> Permission -> Prop) st key p st1 :
  entries Q (ret st) ->
  Q key p ->
  merge reponame st key p = Ok st1 ->
  entries Q (ret st1).
Proof.
  intros Hinv Hq Hm k v.
  assert (Hins : forall w, Q key w ->
            <[key := w]> (ret st) !! k = Some v -> Q k v).
  { intros w Hw. destruct (decide (key = k)) as [<-|Hne].
    - rewrite lookup_insert_eq. now intros [= <-].
    - rewrite lookup_insert_ne by assumption. apply Hinv. }
  revert Hm. unfold merge.
  destruct (ret st !! key) as [val|] eqn:Hl.
  - case_bool_decide as Hne.
    + destruct (resolvesToAdmin key val p) eqn:Hr; [|discriminate].
      intros [= <-]. simpl. apply Hins.
      unfold resolvesToAdmin in Hr. apply orb_true_iff in Hr as [Hr|Hr].
      * apply andb_true_iff in Hr as [_ Hr]. apply andb_true_iff in Hr as [_ Hr].
        apply bool_decide_eq_true_1 in Hr. now subst p.
      * apply andb_true_iff in Hr as [Hr _].
        apply bool_decide_eq_true_1 in Hr. subst val. now apply Hinv.
    + intros [= <-]. simpl. now apply Hins.
  - intros [= <-]. simpl. now apply Hins.
Qed.

Lemma step_entries (Q : string -> Permission -> Prop) login st source st1 :
  entries Q (ret st) ->
  Q (sourceKey tf login (Src source)) (Perm source) ->
  step tf orgname reponame login st source = Ok st1 ->
  entries Q (ret st1).
Proof.
  intros Hinv Hq. unfold step.
  destruct (isAmbient _ _); [intros [= <-]; now case_bool_decide|].
  destruct (ownerBypass _ _ _); [now intros [= <-]|].
  now apply merge_entries.
Qed.

(** What an error of one iteration looks like. *)
Lemma step_error (Q : string -> Permission -> Prop) login st source e :
  entries Q (ret st) ->
  Q (sourceKey tf login (Src source)) (Perm source) ->
  step tf orgname reponame login st source = Err e ->
  exists k old new,
    e = Mismatch reponame k old new
    /\ old <> new
    /\ isAmbient orgname k = false
    /\ resolvesToAdmin k old new = false
    /\ Q k old /\ Q k new.
Proof.
  intros Hinv Hq. unfold step.
  destruct (isAmbient _ _) eqn:Ha; [discriminate|].
  destruct (ownerBypass _ _ _); [discriminate|].
  unfold merge.
  destruct (ret st !! _) as [val|] eqn:Hl; [|discriminate].
  case_bool_decide as Hne; [|discriminate].
  destruct (resolvesToAdmin _ val _) eqn:Hr; [discriminate|].
  intros [= <-]. exists (sourceKey tf login (Src source)), val, (Perm source).
  repeat split; auto.
Qed.

Lemma scan_entries (Q : string -> Permission -> Prop) login l : forall st st1,
  entries Q (ret st) ->
  Forall (fun source => Q (sourceKey tf login (Src source)) (Perm source)) l ->
  scan tf orgname reponame login st l = Ok st1 ->
  entries Q (ret st1).
Proof.
  induction l as [|s l IH]; intros st st1 Hinv Hall; simpl.
  - now intros [= <-].
  - inversion Hall as [|? ? Hs Hall']; subst.
    destruct (step tf orgname reponame login st s) as [e|st'] eqn:Hstep; simpl;
      [discriminate|].
    apply IH; auto. eapply step_entries; eauto.
Qed.

Lemma scan_error (Q : string -> Permission -> Prop) login l : forall st e,
  entries Q (ret st) ->
  Forall (fun source => Q (sourceKey tf login (Src source)) (Perm source)) l ->
  scan tf orgname reponame login st l = Err e ->
  exists k old new,
    e = Mismatch reponame k old new
    /\ old <> new
    /\ isAmbient orgname k = false
    /\ resolvesToAdmin k old new = false
    /\ Q k old /\ Q k new.
Proof.
  induction l as [|s l IH]; intros st e Hinv Hall; simpl; [discriminate|].
  inversion Hall as [|? ? Hs Hall']; subst.
  destruct (step tf orgname reponame login st s) as [e'|st'] eqn:Hstep; simpl.
  - intros [= <-]. eapply step_error; eauto.
  - apply IH; auto. eapply step_entries; eauto.
Qed.

Lemma sourced_here userInfo rest source :
  source ∈ PermissionSources userInfo ->
  sourced tf (userInfo :: rest) (sourceKey tf (Login userInfo) (Src source))
    (Perm source).
Proof.
  intros Hin. exists userInfo, source. repeat split; auto. apply list_elem_of_here.
Qed.

Lemma sourced_app_l es1 es2 k p : sourced tf es1 k p -> sourced tf (es1 ++ es2) k p.
Proof.
  intros (u & s & Hu & Hs & Hk & Hp). exists u, s. repeat split; auto.
  apply elem_of_app. now left.
Qed.

Lemma sourced_app_r es1 es2 k p : sourced tf es2 k p -> sourced tf (es1 ++ es2) k p.
Proof.
  intros (u & s & Hu & Hs & Hk & Hp). exists u, s. repeat split; auto.
  apply elem_of_app. now right.
Qed.

(** The two loops, run on [done ++ edges] after [done] has been
    processed: entries and errors all stem from sources of the input. *)
Lemma aggregateFrom_sourced edges : forall done r,
  entries (sourced tf (done ++ edges)) r ->
  match aggregateFrom tf orgname reponame r edges with
  | Ok r' => entries (sourced tf (done ++ edges)) r'
  | Err e =>
      exists k old new,
        e = Mismatch reponame k old new
        /\ old <> new
        /\ isAmbient orgname k = false
        /\ resolvesToAdmin k old new = false
        /\ sourced tf (done ++ edges) k old
        /\ sourced tf (done ++ edges) k new
  end.
Proof.
  induction edges as [|u edges IH]; intros done r Hinv; simpl; [exact Hinv|].
  assert (Hall : Forall (fun source =>
            sourced tf (done ++ u :: edges)
              (sourceKey tf (Login u) (Src source)) (Perm source))
            (PermissionSources u)).
  { apply Forall_forall. intros s Hs. apply sourced_app_r.
    now apply sourced_here. }
  destruct (scan tf orgname reponame (Login u) (mkScan r false ∅)
              (PermissionSources u)) as [e|st] eqn:Hscan; simpl.
  - apply (scan_error (sourced tf (done ++ u :: edges)) (Login u)
             (PermissionSources u) (mkScan r false ∅) e); auto.
  - specialize (IH (done ++ [u]) (ret st)).
    rewrite <- app_assoc in IH. simpl in IH. apply IH.
    apply (scan_entries (sourced tf (done ++ u :: edges)) (Login u)
             (PermissionSources u) (mkScan r false ∅) st); auto.
Qed.

End Provenance.

Lemma output_entries_sourced_aux tf orgname reponame edges r k v :
  getCollaborators tf orgname reponame (Ok edges) = Ok r ->
  r !! k = Some v ->
  sourced tf edges k v.
Proof.
  simpl. unfold aggregate. intros Hagg.
  pose proof (aggregateFrom_sourced tf orgname reponame edges [] ∅) as H.
  rewrite Hagg in H. simpl in H. apply H.
  intros k' v'. now rewrite lookup_empty.
Qed.

(** X1: Every entry of a returned map stems from a source of the input:
    some collaborator has a source deriving that key with that
    permission. *)
Theorem output_entries_are_sourced tf orgname reponame edges r k v :
  getCollaborators tf orgname reponame (Ok edges) = Ok r ->
  r !! k = Some v ->
  sourced tf edges k v.
Proof. apply output_entries_sourced_aux. Qed.

Lemma output_entries_are_sourced_witness :
  sourced Sample.fullnames
    [mkEdge "frank" [Sample.org "ACME" PermREAD; Sample.team "core" PermWRITE];
     mkEdge "grace" [Sample.team "core" PermADMIN]]
    "team:eng/core" PermADMIN.
Proof.
  apply (output_entries_are_sourced Sample.fullnames "ACME" "repo"
           [mkEdge "frank" [Sample.org "ACME" PermREAD; Sample.team "core" PermWRITE];
            mkEdge "grace" [Sample.team "core" PermADMIN]]
           {[ "team:eng/core" := PermADMIN ]}); reflexivity.
Defined.

(** X2: The only error the aggregation itself produces is a mismatch that
    names the repository passed in, a key that is not the ambient one,
    and two different permissions that both occur in the input for that
    key and that the WRITE/ADMIN test does not reconcile. *)
Theorem conflicts_are_between_sourced_values tf orgname reponame edges e :
  getCollaborators tf orgname reponame (Ok edges) = Err e ->
  exists k old new,
    e = Mismatch reponame k old new
    /\ old <> new
    /\ isAmbient orgname k = false
    /\ resolvesToAdmin k old new = false
    /\ sourced tf edges k old
    /\ sourced tf edges k new.
Proof.
  simpl. unfold aggregate. intros Hagg.
  pose proof (aggregateFrom_sourced tf orgname reponame edges [] ∅) as H.
  rewrite Hagg in H. simpl in H. apply H.
  intros k' v'. now rewrite lookup_empty.
Qed.

Lemma conflicts_are_between_sourced_values_witness :
  exists k old new,
    Mismatch "repo" "team:eng/core" PermREAD PermWRITE = Mismatch "repo" k old new
    /\ old <> new
    /\ isAmbient "ACME" k = false
    /\ resolvesToAdmin k old new = false
    /\ sourced Sample.fullnames
         [mkEdge "frank" [Sample.team "core" PermREAD];
          mkEdge "grace" [Sample.team "core" PermWRITE]] k old
    /\ sourced Sample.fullnames
         [mkEdge "frank" [Sample.team "core" PermREAD];
          mkEdge "grace" [Sample.team "core" PermWRITE]] k new.
Proof.
  apply (conflicts_are_between_sourced_values Sample.fullnames "ACME" "repo"
           [mkEdge "frank" [Sample.team "core" PermREAD];
            mkEdge "grace" [Sample.team "core" PermWRITE]]).
  reflexivity.
Defined.

(** X3: When no key is derived with two different permissions anywhere in
    the input, the aggregation returns a map. *)
Theorem consistent_input_never_conflicts tf orgname reponame edges :
  consistent tf edges ->
  exists r, getCollaborators tf orgname reponame (Ok edges) = Ok r.
Proof.
  intros Hcons. simpl. unfold aggregate.
  pose proof (aggregateFrom_sourced tf orgname reponame edges [] ∅) as H.
  destruct (aggregateFrom tf orgname reponame ∅ edges) as [e|r]; [|eauto].
  destruct H as (k & old & new & _ & Hne & _ & _ & Hold & Hnew).
  - intros k' v'. now rewrite lookup_empty.
  - exfalso. apply Hne. exact (Hcons k old new Hold Hnew).
Qed.

Lemma sample_consistent :
  consistent Sample.fullnames
    [mkEdge "frank" [Sample.team "core" PermWRITE];
     mkEdge "grace" [Sample.team "core" PermWRITE]].
Proof.
  intros k p q (u1 & s1 & Hu1 & Hs1 & _ & <-) (u2 & s2 & Hu2 & Hs2 & _ & <-).
  repeat match goal with
         | H : _ ∈ _ :: _ |- _ => apply elem_of_cons in H as [->|H]; simpl in *
         | H : _ ∈ [] |- _ => inversion H
         end; reflexivity.
Qed.

Lemma consistent_input_never_conflicts_witness :
  exists r,
    getCollaborators Sample.fullnames "ACME" "repo"
      (Ok [mkEdge "frank" [Sample.team "core" PermWRITE];
           mkEdge "grace" [Sample.team "core" PermWRITE]]) = Ok r.
Proof.
  apply (consistent_input_never_conflicts Sample.fullnames "ACME" "repo").
  apply sample_consistent.
Defined.

(** *** Recorded permissions only settle *)

Lemma settled_refl v : settled v v.
Proof. now left. Qed.

Lemma settled_trans u v w : settled u v -> settled v w -> settled u w.
Proof.
  unfold settled. intros [->|[-> ->]] [->|[Hv ->]]; auto; discriminate.
Qed.

Section Settling.
Variable tf : gmap string string.
Variables orgname reponame : string.

Lemma merge_settles st key p st1 k v :
  merge reponame st key p = Ok st1 ->
  ret st !! k = Some v ->
  exists v', ret st1 !! k = Some v' /\ settled v v'.
Proof.
  intros Hm Hk.
  destruct (decide (key = k)) as [->|Hne].
  - revert Hm. unfold merge. rewrite Hk. case_bool_decide as Hd.
    + destruct (resolvesToAdmin k v p) eqn:Hr; [|discriminate].
      intros [= <-]. simpl. rewrite lookup_insert_eq. eexists. split; [reflexivity|].
      unfold resolvesToAdmin in Hr. apply orb_true_iff in Hr as [Hr|Hr].
      * apply andb_true_iff in Hr as [_ Hr]. apply andb_true_iff in Hr as [Hr _].
        apply bool_decide_eq_true_1 in Hr. subst v. now right.
      * apply andb_true_iff in Hr as [Hr _].
        apply bool_decide_eq_true_1 in Hr. subst v. now left.
    + intros [= <-]. simpl. rewrite lookup_insert_eq. eexists. split; [reflexivity|].
      rewrite Hd. apply settled_refl.
  - destruct (merge_ret _ _ _ _ _ Hm) as ([w Hw] & _ & _).
    exists v. split; [|apply settled_refl].
    rewrite Hw. now rewrite lookup_insert_ne.
Qed.

(** A merged source leaves its permission, or ADMIN in place of its
    WRITE, under its key. *)
Lemma merge_records st key p st1 :
  merge reponame st key p = Ok st1 ->
  exists v, ret st1 !! key = Some v /\ settled p v.
Proof.
  unfold merge. destruct (ret st !! key) as [val|] eqn:Hl.
  - case_bool_decide as Hd.
    + destruct (resolvesToAdmin key val p) eqn:Hr; [|discriminate].
      intros [= <-]. simpl. rewrite lookup_insert_eq. eexists. split; [reflexivity|].
      unfold resolvesToAdmin in Hr. apply orb_true_iff in Hr as [Hr|Hr].
      * apply andb_true_iff in Hr as [_ Hr]. apply andb_true_iff in Hr as [_ Hr].
        apply bool_decide_eq_true_1 in Hr. subst p. now left.
      * apply andb_true_iff in Hr as [_ Hr].
        apply bool_decide_eq_true_1 in Hr. subst p. now right.
    + intros [= <-]. simpl. rewrite lookup_insert_eq. eexists.
      split; [reflexivity|apply settled_refl].
  - intros [= <-]. simpl. rewrite lookup_insert_eq. eexists.
    split; [reflexivity|apply settled_refl].
Qed.

Lemma step_settles login st source st1 k v :
  step tf orgname reponame login st source = Ok st1 ->
  ret st !! k = Some v ->
  exists v', ret st1 !! k = Some v' /\ settled v v'.
Proof.
  unfold step.
  destruct (isAmbient _ _);
    [intros [= <-] Hk; exists v; split; [now case_bool_decide|apply settled_refl]|].
  destruct (ownerBypass _ _ _);
    [intros [= <-] Hk; exists v; split; [exact Hk|apply settled_refl]|].
  apply merge_settles.
Qed.

Lemma scan_settles login l : forall st st1 k v,
  scan tf orgname reponame login st l = Ok st1 ->
  ret st !! k = Some v ->
  exists v', ret st1 !! k = Some v' /\ settled v v'.
Proof.
  induction l as [|s l IH]; intros st st1 k v; simpl.
  - intros [= <-] Hk. exists v. split; [exact Hk|apply settled_refl].
  - intros Hb Hk. apply bind_Ok in Hb as (st' & Hs & Hrest).
    destruct (step_settles _ _ _ _ _ _ Hs Hk) as (v1 & Hk1 & H1).
    destruct (IH _ _ _ _ Hrest Hk1) as (v2 & Hk2 & H2).
    exists v2. split; [exact Hk2|]. eapply settled_trans; eauto.
Qed.

Lemma aggregateFrom_settles edges : forall r r' k v,
  aggregateFrom tf orgname reponame r edges = Ok r' ->
  r !! k = Some v ->
  exists v', r' !! k = Some v' /\ settled v v'.
Proof.
  induction edges as [|u edges IH]; intros r r' k v; simpl.
  - intros [= <-] Hk. exists v. split; [exact Hk|apply settled_refl].
  - intros Hb Hk. apply bind_Ok in Hb as (st & Hs & Hrest).
    destruct (scan_settles _ _ _ _ _ _ Hs Hk) as (v1 & Hk1 & H1). simpl in Hk1.
    destruct (IH _ _ _ _ Hrest Hk1) as (v2 & Hk2 & H2).
    exists v2. split; [exact Hk2|]. eapply settled_trans; eauto.
Qed.

Lemma scan_stays_non_owner login l : forall st st1,
  isOrgOwner st = false ->
  Forall (fun source => grantsOwner tf orgname login source = false) l ->
  scan tf orgname reponame login st l = Ok st1 ->
  isOrgOwner st1 = false.
Proof.
  induction l as [|s l IH]; intros st st1 Ho Hall; simpl.
  - now intros [= <-].
  - inversion Hall as [|? ? Hg Hall']; subst.
    intros Hb. apply bind_Ok in Hb as (st' & Hs & Hrest).
    apply (IH st'); auto.
    revert Hs. unfold step, grantsOwner, ownerBypass in *. rewrite Ho.
    destruct (isAmbient _ _); simpl in *.
    + rewrite Hg. now intros [= <-].
    + intros Hm. apply merge_ret in Hm as (_ & Ho' & _). congruence.
Qed.

End Settling.

(** X4: Entries are never removed by later sources or later collaborators,
    and a recorded permission never changes except from WRITE to
    ADMIN. *)
Theorem recorded_permissions_only_settle tf orgname reponame r edges r' k v :
  aggregateFrom tf orgname reponame r edges = Ok r' ->
  r !! k = Some v ->
  exists v', r' !! k = Some v' /\ (v' = v \/ (v = PermWRITE /\ v' = PermADMIN)).
Proof. apply aggregateFrom_settles. Qed.

Lemma recorded_permissions_only_settle_witness :
  exists v',
    ({[ "team:eng/core" := PermADMIN; "user:frank" := PermREAD ]}
       : gmap string Permission) !! "team:eng/core" = Some v'
    /\ (v' = PermWRITE \/ (PermWRITE = PermWRITE /\ v' = PermADMIN)).
Proof.
  apply (recorded_permissions_only_settle Sample.fullnames "ACME" "repo"
           {[ "team:eng/core" := PermWRITE ]}
           [mkEdge "frank" [Sample.repo "repo" PermREAD;
                            Sample.team "core" PermADMIN]]);
    reflexivity.
Defined.

Lemma merged_sources_recorded_aux tf orgname reponame edges r userInfo source :
  getCollaborators tf orgname reponame (Ok edges) = Ok r ->
  userInfo ∈ edges ->
  source ∈ PermissionSources userInfo ->
  isAmbient orgname (sourceKey tf (Login userInfo) (Src source)) = false ->
  Perm source <> PermADMIN
  \/ Forall (fun s => grantsOwner tf orgname (Login userInfo) s = false)
       (PermissionSources userInfo) ->
  exists v,
    r !! sourceKey tf (Login userInfo) (Src source) = Some v
    /\ settled (Perm source) v.
Proof.
  simpl. unfold aggregate. intros Hagg Hu Hs Ha Hfree.
  apply list_elem_of_split in Hu as (es1 & es2 & ->).
  rewrite aggregateFrom_app in Hagg.
  apply bind_Ok in Hagg as (r1 & _ & Hagg). simpl in Hagg.
  apply bind_Ok in Hagg as (st & Hscan & Hrest).
  apply list_elem_of_split in Hs as (l1 & l2 & Hl). rewrite Hl in *.
  rewrite scan_app in Hscan. apply bind_Ok in Hscan as (sta & Hpre & Hscan).
  simpl in Hscan. apply bind_Ok in Hscan as (stb & Hstep & Hpost).
  assert (Hby : ownerBypass sta (sourceKey tf (Login userInfo) (Src source))
                  (Perm source) = false).
  { unfold ownerBypass. destruct Hfree as [Hp|Hno].
    - rewrite (bool_decide_eq_false_2 _ Hp). apply andb_false_r.
    - apply Forall_app in Hno as [Hno _].
      now rewrite (scan_stays_non_owner tf orgname reponame (Login userInfo) l1
                     (mkScan r1 false ∅) sta eq_refl Hno Hpre). }
  unfold step in Hstep. rewrite Ha, Hby in Hstep.
  destruct (merge_records _ _ _ _ _ Hstep) as (v0 & Hk0 & H0).
  destruct (scan_settles _ _ _ _ _ _ _ _ _ Hpost Hk0) as (v1 & Hk1 & H1).
  destruct (aggregateFrom_settles _ _ _ _ _ _ _ _ Hrest Hk1) as (v2 & Hk2 & H2).
  exists v2. split; [exact Hk2|].
  eapply settled_trans; [exact H0|]. eapply settled_trans; eauto.
Qed.

(** X5: A source that is not the ambient one and cannot be discarded by the
    owner bypass (its permission is not ADMIN, or its collaborator has no
    ambient ADMIN source) is in every returned map: its key holds its
    permission, or ADMIN where the source carried WRITE. *)
Theorem merged_sources_are_recorded tf orgname reponame edges r userInfo source :
  getCollaborators tf orgname reponame (Ok edges) = Ok r ->
  userInfo ∈ edges ->
  source ∈ PermissionSources userInfo ->
  isAmbient orgname (sourceKey tf (Login userInfo) (Src source)) = false ->
  Perm source <> PermADMIN
  \/ Forall (fun s => grantsOwner tf orgname (Login userInfo) s = false)
       (PermissionSources userInfo) ->
  exists v,
    r !! sourceKey tf (Login userInfo) (Src source) = Some v
    /\ settled (Perm source) v.
Proof. apply merged_sources_recorded_aux. Qed.

Lemma merged_sources_are_recorded_witness :
  exists v,
    ({[ "team:eng/core" := PermADMIN; "user:frank" := PermREAD ]}
       : gmap string Permission)
      !! sourceKey Sample.fullnames "frank" (Src (Sample.team "core" PermWRITE))
    = Some v
    /\ settled PermWRITE v.
Proof.
  apply (merged_sources_are_recorded Sample.fullnames "ACME" "repo"
           [mkEdge "frank" [Sample.repo "repo" PermREAD;
                            Sample.team "core" PermWRITE];
            mkEdge "grace" [Sample.org "ACME" PermADMIN;
                            Sample.team "core" PermADMIN;
                            Sample.team "core" PermADMIN]]
           _ (mkEdge "frank" [Sample.repo "repo" PermREAD;
                              Sample.team "core" PermWRITE])
           (Sample.team "core" PermWRITE)).
  - vm_compute. reflexivity.
  - apply list_elem_of_here.
  - apply list_elem_of_further, list_elem_of_here.
  - reflexivity.
  - left. discriminate.
Defined.

(** *** Across collaborators *)

(** X6: The map is shared by the collaborators of a repository: a key that
    earlier collaborators left with the value [v] makes a later
    collaborator's first source for that key, with a different
    permission that the WRITE/ADMIN test does not reconcile, abort the
    whole aggregation. *)
Theorem conflict_across_collaborators
    tf orgname reponame es1 r login source rest es2 v :
  aggregate tf orgname reponame es1 = Ok r ->
  r !! sourceKey tf login (Src source) = Some v ->
  v <> Perm source ->
  resolvesToAdmin (sourceKey tf login (Src source)) v (Perm source) = false ->
  aggregate tf orgname reponame (es1 ++ mkEdge login (source :: rest) :: es2)
  = Err (Mismatch reponame (sourceKey tf login (Src source)) v (Perm source)).
Proof.
  intros Hagg Hk Hne Hr. unfold aggregate in *.
  rewrite aggregateFrom_app, Hagg. cbn [bind aggregateFrom Login PermissionSources scan].
  assert (Ha : isAmbient orgname (sourceKey tf login (Src source)) = false).
  { destruct (isAmbient orgname (sourceKey tf login (Src source))) eqn:Ha;
      [|reflexivity].
    rewrite (aggregateFrom_keeps_absent _ _ _ _ _ _ _ Ha (lookup_empty _) Hagg) in Hk.
    discriminate. }
  rewrite step_non_owner by auto.
  now rewrite (merge_conflict reponame (mkScan r false ∅) _ _ v Hk Hne Hr).
Qed.

Lemma conflict_across_collaborators_witness :
  aggregate Sample.fullnames "ACME" "repo"
    ([mkEdge "frank" [Sample.team "core" PermREAD]]
     ++ mkEdge "grace" (Sample.team "core" PermWRITE :: []) :: [])
  = Err (Mismatch "repo"
           (sourceKey Sample.fullnames "grace" (Src (Sample.team "core" PermWRITE)))
           PermREAD (Perm (Sample.team "core" PermWRITE))).
Proof.
  apply (conflict_across_collaborators Sample.fullnames "ACME" "repo"
           [mkEdge "frank" [Sample.team "core" PermREAD]]
           {[ "team:eng/core" := PermREAD ]} "grace"
           (Sample.team "core" PermWRITE) [] [] PermREAD);
    first [reflexivity | discriminate].
Defined.

(** X7: Each collaborator starts with the owner flag off, and only an
    ambient ADMIN source raises it: for a collaborator without such a
    source nothing is discarded by the owner bypass, whatever map the
    collaborators before left, owners among them or not. *)
Theorem non_owner_is_never_suppressed tf orgname reponame r login l key :
  Forall (fun source => grantsOwner tf orgname login source = false) l ->
  suppressions tf orgname reponame login (mkScan r false ∅) l key = 0.
Proof.
  generalize (mkScan r false ∅) (eq_refl : isOrgOwner (mkScan r false ∅) = false).
  induction l as [|s l IH]; intros st Ho Hall; simpl; [reflexivity|].
  inversion Hall as [|? ? Hg Hall']; subst.
  assert (Hoff : suppressed tf orgname login st s = false).
  { unfold suppressed, ownerBypass. rewrite Ho. simpl. apply andb_false_r. }
  rewrite Hoff. simpl.
  destruct (step tf orgname reponame login st s) as [e|st1] eqn:Hs; [reflexivity|].
  apply IH; auto.
  apply (scan_stays_non_owner tf orgname reponame login [s] st st1 Ho).
  - now apply Forall_cons_2.
  - simpl. now rewrite Hs.
Qed.

Lemma non_owner_is_never_suppressed_witness :
  suppressions Sample.fullnames "ACME" "repo" "grace"
    (mkScan {[ "team:eng/core" := PermADMIN ]} false ∅)
    [Sample.org "ACME" PermREAD; Sample.team "core" PermADMIN;
     Sample.repo "repo" PermADMIN] "team:eng/core" = 0.
Proof.
  apply (non_owner_is_never_suppressed Sample.fullnames "ACME" "repo").
  repeat (apply Forall_cons_2; [reflexivity|]). apply Forall_nil_2.
Defined.

(** X8: Only an Organization-tagged source whose login is the queried
    organization derives the ambient key; a team or repository source
    never does, whatever the team's full name or the collaborator's
    login.  So only such a source, with ADMIN, raises the owner flag. *)
Theorem ambient_iff_queried_org tf orgname login source :
  (isAmbient orgname (sourceKey tf login (Src source)) = true
   <-> Org (Src source) <> "" /\ Org (Src source) = orgname)
  /\ (grantsOwner tf orgname login source = true
      <-> Org (Src source) <> "" /\ Org (Src source) = orgname
          /\ Perm source = PermADMIN).
Proof.
  assert (Hamb : isAmbient orgname (sourceKey tf login (Src source)) = true
                 <-> Org (Src source) <> "" /\ Org (Src source) = orgname).
  { unfold isAmbient, sourceKey. rewrite bool_decide_eq_true.
    repeat case_bool_decide; simpl; split;
      try (intros Heq; discriminate Heq);
      try (intros [Hne _]; contradiction).
    - intros [= Heq]. auto.
    - intros [_ ->]. reflexivity. }
  split; [exact Hamb|].
  unfold grantsOwner. rewrite andb_true_iff, Hamb, bool_decide_eq_true. tauto.
Qed.

(** ** More on the team hierarchy *)

Lemma append_assoc (a b c : string) : (a +:+ b) +:+ c = a +:+ (b +:+ c).
Proof.
  induction a as [|x a IH]; [reflexivity|].
  change (String x ((a +:+ b) +:+ c) = String x (a +:+ (b +:+ c))).
  f_equal. exact IH.
Qed.

(** What the walk prepends does not depend on what it prepends to. *)
Lemma walk_suffix fuel teamParents : forall tip a b,
  walk fuel teamParents tip (a +:+ b)
  = (fun out => out +:+ b) <$> walk fuel teamParents tip a.
Proof.
  induction fuel as [|fuel IH]; intros tip a b.
  - simpl. now case_bool_decide.
  - rewrite !walk_S. case_bool_decide; [|reflexivity].
    case_bool_decide; [|apply IH].
    rewrite <- IH. f_equal. now rewrite !append_assoc.
Qed.

Lemma resolveTeams_slug fuel nodes m slug :
  resolveTeams fuel nodes = Some m ->
  (slug ∈ Slug <$> nodes
   /\ exists full,
        walk fuel (teamParentsOf nodes) slug slug = Some full
        /\ m !! slug = Some full)
  \/ ((slug ∉ Slug <$> nodes) /\ m !! slug = None).
Proof.
  rewrite resolveTeams_unfold. intros H.
  assert (Hs : teamSlugsOf nodes = Slug <$> nodes).
  { unfold teamSlugsOf. now rewrite collect_slugs. }
  rewrite Hs in H.
  destruct (resolveAll_entries _ _ _ _ _ H slug) as [Hin|[Hnot Hm]]; [now left|].
  right. split; [exact Hnot|]. now rewrite Hm, lookup_empty.
Qed.

(** X11: The returned mapping is total on the fetched teams and has no other
    entry. *)
Theorem full_names_cover_fetched_teams fuel nodes m slug :
  resolveTeams fuel nodes = Some m ->
  is_Some (m !! slug) <-> slug ∈ Slug <$> nodes.
Proof.
  intros H.
  destruct (resolveTeams_slug _ _ _ slug H) as [(Hin & full & _ & Hm)|[Hnot Hm]];
    rewrite Hm; split; eauto.
  - intros [x Hx]. discriminate.
  - contradiction.
Qed.

Lemma full_names_cover_fetched_teams_witness :
  is_Some (({[ "eng" := "eng"; "platform" := "eng/platform";
               "infra" := "eng/platform/infra";
               "oncall" := "eng/platform/infra/oncall";
               "guests" := "partners/guests" ]} : gmap string string) !! "partners")
  <-> "partners" ∈ Slug <$> Sample.chain.
Proof.
  apply (full_names_cover_fetched_teams 5 Sample.chain).
  vm_compute. reflexivity.
Defined.

(** X12: The full name of a team with a recorded parent is the parent's full
    name, a slash, and the team's slug, at any depth. *)
Theorem full_name_extends_parent fuel nodes m slug parent parentFull :
  resolveTeams fuel nodes = Some m ->
  slug ∈ Slug <$> nodes ->
  slug <> "" ->
  teamParentsOf nodes !! slug = Some parent ->
  parent <> "" ->
  m !! parent = Some parentFull ->
  m !! slug = Some (parentFull +:+ "/" +:+ slug).
Proof.
  intros H Hin Hslug Hp Hparent Hpf.
  destruct (resolveTeams_slug _ _ _ slug H) as [(_ & full & Hw & Hm)|[Hnot _]];
    [|contradiction].
  destruct (resolveTeams_slug _ _ _ parent H) as [(_ & pf & Hwp & Hmp)|[_ Hnone]];
    [|congruence].
  assert (pf = parentFull) by congruence. subst pf.
  rewrite Hm. f_equal.
  destruct fuel as [|fuel].
  - simpl in Hw. rewrite bool_decide_eq_true_2 in Hw by assumption. discriminate.
  - rewrite (walk_up _ _ _ parent) in Hw by assumption.
    rewrite walk_suffix in Hw.
    destruct (walk fuel (teamParentsOf nodes) parent parent) as [out|] eqn:Hout;
      [|discriminate].
    injection Hw as <-.
    now rewrite (walk_functional _ _ _ _ _ _ _ Hout Hwp).
Qed.

Lemma full_name_extends_parent_witness :
  ({[ "eng" := "eng"; "platform" := "eng/platform";
      "infra" := "eng/platform/infra";
      "oncall" := "eng/platform/infra/oncall";
      "guests" := "partners/guests" ]} : gmap string string) !! "oncall"
  = Some ("eng/platform/infra" +:+ "/" +:+ "oncall").
Proof.
  apply (full_name_extends_parent 5 Sample.chain _ "oncall" "infra");
    first [discriminate | reflexivity | idtac].
  repeat first [apply list_elem_of_here | apply list_elem_of_further].
Defined.

(** X13: Every full name ends with the team's own slug: it is the slug
    itself, or something ending in a slash followed by the slug. *)
Theorem full_name_ends_with_slug fuel nodes m slug full :
  resolveTeams fuel nodes = Some m ->
  m !! slug = Some full ->
  full = slug \/ exists ancestors, full = ancestors +:+ "/" +:+ slug.
Proof.
  intros H Hm.
  destruct (resolveTeams_slug _ _ _ slug H) as [(_ & f & Hw & Hm')|[_ Hnone]];
    [|congruence].
  assert (f = full) by congruence. subst f. clear Hm Hm' H.
  destruct fuel as [|fuel]; simpl in Hw.
  - case_bool_decide; [discriminate|]. left. congruence.
  - case_bool_decide; [|left; congruence].
    case_bool_decide as Hi.
    + rewrite walk_suffix in Hw.
      destruct (walk fuel _ _ _) as [out|]; [|discriminate].
      injection Hw as <-. right. now exists out.
    + destruct (decide (index "" (teamParentsOf nodes) slug = "")) as [Hi'|Hi'];
        [|contradiction].
      rewrite Hi', walk_done in Hw. left. congruence.
Qed.

Lemma full_name_ends_with_slug_witness :
  "partners/guests" = "guests"
  \/ exists ancestors, "partners/guests" = ancestors +:+ "/" +:+ "guests".
Proof.
  apply (full_name_ends_with_slug 5 Sample.chain
           {[ "eng" := "eng"; "platform" := "eng/platform";
              "infra" := "eng/platform/infra";
              "oncall" := "eng/platform/infra/oncall";
              "guests" := "partners/guests" ]} "guests" "partners/guests").
  - vm_compute. reflexivity.
  - reflexivity.
Defined.

(** X15: A fetch error is returned whatever the teams fetched before it look
    like and for every step budget: no walk starts before the last page
    has arrived, so an error on a later page is reported even when the
    pages before it hold a parent cycle. *)
Theorem teams_fetch_error_precedes_resolution fuel init e rest :
  Forall hasNext init ->
  getTeamFullnames fuel ((Ok <$> init) ++ Err e :: rest)
  = (Returned (Err e), None :: (nextCursor <$> init)).
Proof.
  intros Hall. unfold getTeamFullnames, paginate.
  now rewrite pageLoop_error by auto.
Qed.

Lemma teams_fetch_error_precedes_resolution_witness :
  getTeamFullnames 0
    ((Ok <$> [mkPage (mkPageInfo true "c1") Sample.loop])
     ++ Err (GraphqlError "timeout") :: [])
  = (Returned (Err (GraphqlError "timeout")),
     None :: (nextCursor <$> [mkPage (mkPageInfo true "c1") Sample.loop])).
Proof.
  apply (teams_fetch_error_precedes_resolution 0
           [mkPage (mkPageInfo true "c1") Sample.loop]).
  apply Forall_cons_2; [reflexivity|apply Forall_nil_2].
Defined.

(** ** More on pagination and the repository list *)

(** X16: [getRepos] returns a handle for every node that is not archived and
    for no other, in the order the server sent the nodes, page after
    page. *)
Theorem getRepos_returns_non_archived_in_order init last rest :
  Forall hasNext init ->
  HasNextPage (Info last) = false ->
  (getRepos ((Ok <$> init ++ [last]) ++ rest)).1
  = Returned (Ok ((fun r => mkRepoHandle (Name r) (URL r))
                    <$> filter (fun r => IsArchived r = false)
                          (allNodes (init ++ [last])))).
Proof.
  intros Hall Hlast. unfold getRepos, paginate.
  rewrite pageLoop_pages by auto. simpl. now rewrite keepRepo_fold.
Qed.

Lemma getRepos_returns_non_archived_in_order_witness :
  (getRepos ((Ok <$> [Sample.firstPage; Sample.secondPage] ++ [Sample.lastPage])
             ++ [])).1
  = Returned (Ok ((fun r => mkRepoHandle (Name r) (URL r))
                    <$> filter (fun r => IsArchived r = false)
                          (allNodes ([Sample.firstPage; Sample.secondPage]
                                     ++ [Sample.lastPage])))).
Proof.
  apply (getRepos_returns_non_archived_in_order
           [Sample.firstPage; Sample.secondPage] Sample.lastPage []).
  - repeat (apply Forall_cons_2; [reflexivity|]). apply Forall_nil_2.
  - reflexivity.
Defined.

(** X17: How the server cuts the nodes into pages does not matter: two
    complete page sequences with the same nodes in the same order give
    the same repository list and the same team names (a parent that
    arrives on a later page than its child is found all the same). *)
Theorem page_boundaries_do_not_matter
    fuel (teamsA : list (Page TeamNode)) lastA teamsB lastB
    (reposA : list (Page RepoNode)) lastRA reposB lastRB :
  Forall hasNext teamsA -> HasNextPage (Info lastA) = false ->
  Forall hasNext teamsB -> HasNextPage (Info lastB) = false ->
  Forall hasNext reposA -> HasNextPage (Info lastRA) = false ->
  Forall hasNext reposB -> HasNextPage (Info lastRB) = false ->
  allNodes (teamsA ++ [lastA]) = allNodes (teamsB ++ [lastB]) ->
  allNodes (reposA ++ [lastRA]) = allNodes (reposB ++ [lastRB]) ->
  (getTeamFullnames fuel (Ok <$> teamsA ++ [lastA])).1
  = (getTeamFullnames fuel (Ok <$> teamsB ++ [lastB])).1
  /\ (getRepos (Ok <$> reposA ++ [lastRA])).1
     = (getRepos (Ok <$> reposB ++ [lastRB])).1.
Proof.
  intros HA HlA HB HlB HRA HlRA HRB HlRB Hteams Hrepos.
  rewrite <- (app_nil_r (Ok <$> teamsA ++ [lastA])).
  rewrite <- (app_nil_r (Ok <$> teamsB ++ [lastB])).
  rewrite <- (app_nil_r (Ok <$> reposA ++ [lastRA])).
  rewrite <- (app_nil_r (Ok <$> reposB ++ [lastRB])).
  rewrite !getTeamFullnames_pages, !getRepos_pages by assumption.
  simpl. now rewrite Hteams, Hrepos.
Qed.

Lemma page_boundaries_do_not_matter_witness :
  (getTeamFullnames 6
     (Ok <$> [mkPage (mkPageInfo true "c1") (take 4 Sample.chain)]
             ++ [mkPage (mkPageInfo false "c2") (drop 4 Sample.chain)])).1
  = (getTeamFullnames 6 (Ok <$> [] ++ [mkPage (mkPageInfo false "c") Sample.chain])).1
  /\ (getRepos (Ok <$> [Sample.firstPage; Sample.secondPage] ++ [Sample.lastPage])).1
     = (getRepos
          (Ok <$> [] ++ [mkPage (mkPageInfo false "c")
                           (allNodes [Sample.firstPage; Sample.secondPage;
                                      Sample.lastPage])])).1.
Proof.
  apply page_boundaries_do_not_matter;
    first [reflexivity
          | repeat (apply Forall_cons_2; [reflexivity|]); apply Forall_nil_2].
Defined.

(** ** Permission names *)

(** X18: Decoding a permission's name gives the permission back, only the
    four upper-case names decode, and each decodes to the permission it
    names; any other text is an error that quotes the text. *)
Theorem permission_names_round_trip :
  (forall p, Names.UnmarshalText (Names.String p) = inr p)
  /\ (forall text p, Names.UnmarshalText text = inr p -> text = Names.String p)
  /\ (forall text,
        (forall p, text <> Names.String p) ->
        Names.UnmarshalText text = inl (Names.InvalidPermission text)).
Proof.
  assert (Hinv : forall text p,
            Names.UnmarshalText text = inr p -> text = Names.String p).
  { intros text p. unfold Names.UnmarshalText.
    destruct (_ !! text) as [val|] eqn:Hl; [|discriminate].
    intros [= ->].
    repeat (apply lookup_insert_Some in Hl as [[<- <-]|[_ Hl]]; [reflexivity|]).
    now apply lookup_singleton_Some in Hl as [<- <-]. }
  split; [intros []; reflexivity|]. split; [exact Hinv|].
  intros text Hnot.
  destruct (Names.UnmarshalText text) as [err|p] eqn:Hu.
  - revert Hu. unfold Names.UnmarshalText. now destruct (_ !! text).
  - exfalso. exact (Hnot p (Hinv _ _ Hu)).
Qed.

(** ** The report *)

Import Report.

Lemma string_le_spec a b : string_le a b <-> a = b \/ String_as_OT.lt a b.
Proof.
  unfold string_le, String.leb.
  pose proof (String_as_OT.cmp_eq a b) as He.
  pose proof (String_as_OT.cmp_lt a b) as Hl.
  unfold String_as_OT.cmp in *.
  destruct (String.compare a b) eqn:Hc; split; intros H; auto.
  - left. now apply He.
  - right. now apply Hl.
  - discriminate.
  - destruct H as [H|H].
    + apply He in H. discriminate.
    + apply Hl in H. discriminate.
Qed.

#[local] Instance string_le_trans : Transitive string_le.
Proof.
  intros a b c Hab Hbc. apply string_le_spec in Hab, Hbc. apply string_le_spec.
  destruct Hab as [->|Hab]; [exact Hbc|].
  destruct Hbc as [<-|Hbc]; [now right|].
  right. eapply String_as_OT.lt_trans; eauto.
Qed.

#[local] Instance string_le_antisym : AntiSymm (=) string_le.
Proof. intros a b. apply String.leb_antisym. Qed.

#[local] Instance string_le_total : Total string_le.
Proof. intros a b. apply String.leb_total. Qed.

Lemma bucket_Permutation entries entries' bucketName :
  entries ≡ₚ entries' ->
  bucket entries bucketName = bucket entries' bucketName.
Proof.
  intros Hperm. unfold bucket.
  apply (Sorted_unique string_le); try apply Sorted_merge_sort; try apply _.
  rewrite !merge_sort_Permutation. now rewrite Hperm.
Qed.


(** X19: Go leaves the order of a [range] over a map unspecified; the row
    does not depend on it: any two enumerations of the same entries
    give the same text, with every bucket sorted. *)
Theorem row_independent_of_iteration_order url entries entries' :
  entries ≡ₚ entries' ->
  row url entries = row url entries'
  /\ forall bucketName, Sorted string_le (bucket entries bucketName).
Proof.
  intros Hperm. split.
  - unfold row, bucketNames. simpl.
    now rewrite !(bucket_Permutation entries entries') by assumption.
  - intros bucketName. apply Sorted_merge_sort. apply _.
Qed.

Lemma row_independent_of_iteration_order_witness :
  row "u" [("team:b", PermREAD); ("org:x", PermWRITE); ("team:a", PermADMIN)]
  = row "u" [("team:a", PermADMIN); ("team:b", PermREAD); ("org:x", PermWRITE)]
  /\ forall bucketName,
       Sorted string_le
         (bucket [("team:b", PermREAD); ("org:x", PermWRITE); ("team:a", PermADMIN)]
            bucketName).
Proof.
  apply row_independent_of_iteration_order.
  etransitivity; [apply Permutation_skip, Permutation_swap|].
  apply Permutation_swap.
Defined.







(** ** Main *)

Section MainFacts.
Variable orgname : string.
Variable fetch : string -> result (list Edge).
Variable tf : gmap string string.

Lemma inspect_app n before : forall maps i rest log,
  Forall2 (aggregatesTo orgname fetch tf) before maps ->
  inspect orgname fetch tf n i (before ++ rest) log
  = inspect orgname fetch tf n (i + length before) rest
      (log ++ eventsFor n i before maps).
Proof.
  induction before as [|repo before IH]; intros maps i rest log Hall.
  - inversion Hall; subst. simpl. now rewrite Nat.add_0_r, app_nil_r.
  - inversion Hall as [|? c ? maps' Hrepo Hall']; subst.
    unfold aggregatesTo in Hrepo. cbn [app inspect eventsFor length].
    rewrite Hrepo, (IH maps' (S i) rest) by assumption.
    rewrite <- app_assoc. f_equal. lia.
Qed.

Lemma inspect_never_flushes n repos : forall i log,
  Flushed ∉ log ->
  Flushed ∉ (inspect orgname fetch tf n i repos log).2.
Proof.
  induction repos as [|repo repos IH]; intros i log Hlog; simpl; [exact Hlog|].
  destruct (getCollaborators tf orgname (HName repo) (fetch (HName repo))).
  - simpl. rewrite elem_of_app, list_elem_of_singleton. intros [H|H]; [auto|discriminate].
  - apply IH. rewrite elem_of_app. intros [H|H]; [auto|].
    apply elem_of_cons in H as [H|H]; [discriminate|].
    apply list_elem_of_singleton in H. discriminate.
Qed.

End MainFacts.

(** X21: [Main] fails fast and without flushing: when [getCollaborators]
    fails for a repository, [Main] returns that error wrapped with the
    repository's URL; the repositories before it were announced and
    their rows written to the tabwriter, the failing one was announced,
    [Flush] is not called, and nothing happens for the repositories
    after it. *)
Theorem Main_fails_fast
    token orgname fuel teams repos fetch tf before repo after maps e :
  token <> "" ->
  (getTeamFullnames fuel teams).1 = Returned (Ok tf) ->
  (getRepos repos).1 = Returned (Ok (before ++ repo :: after)) ->
  Forall2 (aggregatesTo orgname fetch tf) before maps ->
  getCollaborators tf orgname (HName repo) (fetch (HName repo)) = Err e ->
  Main token orgname fuel teams repos fetch
  = (Finished (Some (InRepo (HURL repo) e)),
     eventsFor (length (before ++ repo :: after)) 0 before maps
     ++ [Inspecting (length before) (length (before ++ repo :: after))
           (HName repo)]).
Proof.
  intros Htoken Hteams Hrepos Hall Herr. unfold Main.
  rewrite (bool_decide_eq_false_2 _ Htoken), Hteams, Hrepos.
  rewrite (inspect_app orgname fetch tf _ before maps) by assumption.
  cbn [inspect]. now rewrite Herr.
Qed.

(** X22: When every repository aggregates, [Main] returns nil after
    announcing each repository and writing its row, in the order
    [getRepos] returned them, numbered from 0, and calls [Flush] once,
    at the end. *)
Theorem Main_succeeds token orgname fuel teams repos fetch tf handles maps :
  token <> "" ->
  (getTeamFullnames fuel teams).1 = Returned (Ok tf) ->
  (getRepos repos).1 = Returned (Ok handles) ->
  Forall2 (aggregatesTo orgname fetch tf) handles maps ->
  Main token orgname fuel teams repos fetch
  = (Finished None, eventsFor (length handles) 0 handles maps ++ [Flushed]).
Proof.
  intros Htoken Hteams Hrepos Hall. unfold Main.
  rewrite (bool_decide_eq_false_2 _ Htoken), Hteams, Hrepos.
  rewrite <- (app_nil_r handles) at 2.
  rewrite (inspect_app orgname fetch tf _ handles maps) by assumption.
  reflexivity.
Qed.

(** X23: [Flush] is called exactly when [Main] returns nil: after a missing
    token, a failed or unfinished fetch of teams or repositories, or a
    failed repository, nothing that was written is flushed. *)
Theorem flushed_iff_no_error token orgname fuel teams repos fetch :
  Flushed ∈ (Main token orgname fuel teams repos fetch).2
  <-> (Main token orgname fuel teams repos fetch).1 = Finished None.
Proof.
  unfold Main. case_bool_decide; simpl.
  { split; [intros Hin; now apply elem_of_nil in Hin|discriminate]. }
  destruct (getTeamFullnames fuel teams).1 as [[e|tf]| |]; simpl;
    try (split; [intros Hin; now apply elem_of_nil in Hin|discriminate]).
  destruct (getRepos repos).1 as [[e|handles]| |]; simpl;
    try (split; [intros Hin; now apply elem_of_nil in Hin|discriminate]).
  pose proof (inspect_never_flushes orgname fetch tf (length handles) handles 0 [])
    as Hnever.
  destruct (inspect orgname fetch tf (length handles) 0 handles []) as [[err|] log];
    simpl in *.
  - split; [|discriminate]. intros Hin. exfalso. apply Hnever; [apply not_elem_of_nil|exact Hin].
  - split; [reflexivity|]. intros _. apply elem_of_app. right. apply list_elem_of_here.
Qed.

Lemma Main_fails_fast_witness :
  Main "token" "ACME" 6 Sample.teamPages Sample.repoPages Sample.conflicting
  = (Finished (Some (InRepo (HURL Sample.web)
                       (Mismatch "web" "team:eng/platform/infra/oncall"
                          PermREAD PermWRITE))),
     eventsFor (length ([Sample.api] ++ Sample.web :: [])) 0 [Sample.api]
       [Sample.frankMap]
     ++ [Inspecting (length [Sample.api])
           (length ([Sample.api] ++ Sample.web :: [])) (HName Sample.web)]).
Proof.
  apply (Main_fails_fast "token" "ACME" 6 Sample.teamPages Sample.repoPages
           Sample.conflicting Sample.chainNames [Sample.api] Sample.web []
           [Sample.frankMap]).
  - discriminate.
  - vm_compute. reflexivity.
  - vm_compute. reflexivity.
  - constructor; [vm_compute; reflexivity|constructor].
  - vm_compute. reflexivity.
Defined.

Lemma Main_succeeds_witness :
  Main "token" "ACME" 6 Sample.teamPages Sample.repoPages Sample.agreeing
  = (Finished None,
     eventsFor (length [Sample.api; Sample.web]) 0 [Sample.api; Sample.web]
       [Sample.frankMap; Sample.frankMap]
     ++ [Flushed]).
Proof.
  apply (Main_succeeds "token" "ACME" 6 Sample.teamPages Sample.repoPages
           Sample.agreeing Sample.chainNames).
  - discriminate.
  - vm_compute. reflexivity.
  - vm_compute. reflexivity.
  - repeat (constructor; [vm_compute; reflexivity|]). constructor.
Defined.

(** ** Owners, clean inputs, and team order *)

Lemma owner_scan_leaves_map tf orgname reponame login r rest : forall skipped,
  Forall (fun source => Perm source = PermADMIN) rest ->
  NoDup ((fun source => sourceKey tf login (Src source)) <$> rest) ->
  Forall (fun source =>
            index false skipped (sourceKey tf login (Src source)) = false) rest ->
  exists skipped',
    scan tf orgname reponame login (mkScan r true skipped) rest
    = Ok (mkScan r true skipped').
Proof.
  induction rest as [|s rest IH]; intros skipped Hadmin Hnd Hfresh; simpl; [eauto|].
  inversion Hadmin as [|? ? Hp Hadmin']; subst.
  inversion Hfresh as [|? ? Hk Hfresh']; subst.
  rewrite fmap_cons in Hnd. apply NoDup_cons in Hnd as [Hnew Hnd].
  unfold step, ownerBypass. cbn [isOrgOwner skippedSources ret].
  rewrite Hp, Hk.
  destruct (isAmbient orgname (sourceKey tf login (Src s))); simpl.
  - now apply IH.
  - apply IH; auto.
    apply Forall_forall. intros s' Hin. unfold index.
    rewrite lookup_insert_ne.
    + apply (proj1 (Forall_forall _ _) Hfresh' s' Hin).
    + intros Heq. apply Hnew. rewrite Heq.
      now apply (list_elem_of_fmap_2 (fun source => sourceKey tf login (Src source))).
Qed.

(** X9: What the owner bypass is for: an org owner whose ambient ADMIN
    source comes first and whose other sources are all ADMIN, no key
    twice, adds nothing to the map and raises no conflict, whatever the
    map already holds under those keys. *)
Theorem owner_with_only_admin_adds_nothing
    tf orgname reponame r login ambient rest :
  sourceKey tf login (Src ambient) = "org:" +:+ orgname ->
  Perm ambient = PermADMIN ->
  Forall (fun source => Perm source = PermADMIN) rest ->
  NoDup ((fun source => sourceKey tf login (Src source)) <$> rest) ->
  aggregateFrom tf orgname reponame r [mkEdge login (ambient :: rest)] = Ok r.
Proof.
  intros Hkey Hp Hadmin Hnd. rewrite aggregateFrom_single. cbn [scan].
  unfold step at 1. rewrite Hkey, ambient_key_is_ambient, Hp.
  rewrite bool_decide_eq_true_2 by reflexivity. cbn [bind ret skippedSources].
  destruct (owner_scan_leaves_map tf orgname reponame login r rest ∅ Hadmin Hnd)
    as [skipped' ->]; [|reflexivity].
  apply Forall_forall. intros s _. unfold index. now rewrite lookup_empty.
Qed.

Lemma owner_with_only_admin_adds_nothing_witness :
  aggregateFrom Sample.fullnames "ACME" "repo" {[ "team:eng/core" := PermREAD ]}
    [mkEdge "heidi" (Sample.org "ACME" PermADMIN
                     :: [Sample.team "core" PermADMIN; Sample.repo "repo" PermADMIN])]
  = Ok {[ "team:eng/core" := PermREAD ]}.
Proof.
  apply owner_with_only_admin_adds_nothing; try reflexivity.
  - repeat (apply Forall_cons_2; [reflexivity|]). apply Forall_nil_2.
  - apply (bool_decide_unpack _). vm_compute. exact I.
Defined.

(** X10: With no owner among the collaborators and no key derived with two
    different permissions, the returned map is exactly the set of
    (key, permission) pairs of the sources other than the ambient
    one. *)
Theorem clean_input_is_recorded_exactly tf orgname reponame edges r k v :
  consistent tf edges ->
  Forall (fun userInfo =>
            Forall (fun source =>
                      grantsOwner tf orgname (Login userInfo) source = false)
              (PermissionSources userInfo)) edges ->
  getCollaborators tf orgname reponame (Ok edges) = Ok r ->
  r !! k = Some v <-> sourced tf edges k v /\ isAmbient orgname k = false.
Proof.
  intros Hcons Hno Hagg. split.
  - intros Hk. split; [eapply output_entries_sourced_aux; eauto|].
    destruct (isAmbient orgname k) eqn:Ha; [|reflexivity].
    simpl in Hagg. unfold aggregate in Hagg.
    rewrite (aggregateFrom_keeps_absent _ _ _ _ _ _ _ Ha (lookup_empty _) Hagg) in Hk.
    discriminate.
  - intros [(u & s & Hu & Hs & <- & <-) Ha].
    destruct (merged_sources_recorded_aux tf orgname reponame edges r u s
                Hagg Hu Hs Ha) as (v' & Hk & _).
    + right. exact (proj1 (Forall_forall _ _) Hno u Hu).
    + rewrite Hk. f_equal.
      apply (Hcons (sourceKey tf (Login u) (Src s))).
      * eapply output_entries_sourced_aux; eauto.
      * exists u, s. auto.
Qed.

Lemma clean_input_is_recorded_exactly_witness :
  ({[ "team:eng/core" := PermWRITE ]} : gmap string Permission) !! "team:eng/core"
  = Some PermWRITE
  <-> sourced Sample.fullnames
        [mkEdge "frank" [Sample.team "core" PermWRITE];
         mkEdge "grace" [Sample.team "core" PermWRITE]] "team:eng/core" PermWRITE
      /\ isAmbient "ACME" "team:eng/core" = false.
Proof.
  apply (clean_input_is_recorded_exactly Sample.fullnames "ACME" "repo"
           [mkEdge "frank" [Sample.team "core" PermWRITE];
            mkEdge "grace" [Sample.team "core" PermWRITE]]).
  - apply sample_consistent.
  - repeat (apply Forall_cons_2;
              [repeat (apply Forall_cons_2; [reflexivity|]); apply Forall_nil_2|]).
    apply Forall_nil_2.
  - reflexivity.
Defined.

Lemma resolveAll_None_inv fuel teamParents teamSlugs : forall acc,
  resolveAll fuel teamParents teamSlugs acc = None ->
  exists slug, slug ∈ teamSlugs /\ walk fuel teamParents slug slug = None.
Proof.
  induction teamSlugs as [|s rest IH]; intros acc; simpl; [discriminate|].
  destruct (walk fuel teamParents s s) as [full|] eqn:Hw.
  - intros H. destruct (IH _ H) as (slug & Hin & Hnone).
    exists slug. split; [now apply list_elem_of_further|exact Hnone].
  - intros _. exists s. split; [apply list_elem_of_here|exact Hw].
Qed.

Lemma teamParentsOf_Permutation nodes nodes' :
  nodes ≡ₚ nodes' ->
  NoDup (Slug <$> nodes) ->
  teamParentsOf nodes = teamParentsOf nodes'.
Proof.
  intros Hperm Hnd.
  assert (Hnd' : NoDup (Slug <$> nodes')) by now rewrite <- Hperm.
  apply map_eq. intros slug. unfold teamParentsOf.
  destruct (decide (slug ∈ Slug <$> nodes)) as [Hin|Hnot].
  - apply list_elem_of_fmap in Hin as (t & -> & Hin).
    rewrite (collect_parents_member nodes ([], ∅) t Hnd Hin).
    rewrite Hperm in Hin.
    now rewrite (collect_parents_member nodes' ([], ∅) t Hnd' Hin).
  - rewrite collect_parents_other by assumption.
    rewrite Hperm in Hnot. now rewrite collect_parents_other by assumption.
Qed.

(** X14: With unique slugs, the order in which the server lists the teams
    does not matter: the resolver returns the same mapping, or fails to
    return alike, for every reordering of the team set. *)
Theorem team_order_does_not_matter fuel nodes nodes' :
  nodes ≡ₚ nodes' ->
  NoDup (Slug <$> nodes) ->
  resolveTeams fuel nodes = resolveTeams fuel nodes'.
Proof.
  intros Hperm Hnd.
  pose proof (teamParentsOf_Permutation _ _ Hperm Hnd) as Htp.
  assert (Hmem : forall slug, slug ∈ Slug <$> nodes <-> slug ∈ Slug <$> nodes')
    by (intros slug; now rewrite Hperm).
  assert (Hslugs : forall ns, teamSlugsOf ns = Slug <$> ns).
  { intros ns. unfold teamSlugsOf. now rewrite collect_slugs. }
  destruct (resolveTeams fuel nodes) as [m|] eqn:Hm;
    destruct (resolveTeams fuel nodes') as [m'|] eqn:Hm'; [| | |reflexivity].
  - f_equal. apply map_eq. intros slug.
    destruct (resolveTeams_slug _ _ _ slug Hm) as [(Hin & f & Hw & ->)|[Hnot ->]];
      destruct (resolveTeams_slug _ _ _ slug Hm') as [(Hin' & f' & Hw' & ->)|[Hnot' ->]];
      try reflexivity.
    + rewrite <- Htp in Hw'. f_equal. eapply walk_functional; eauto.
    + exfalso. apply Hnot'. now apply Hmem.
    + exfalso. apply Hnot. now apply Hmem.
  - exfalso. rewrite resolveTeams_unfold in Hm'.
    apply resolveAll_None_inv in Hm' as (slug & Hin & Hnone).
    rewrite Hslugs in Hin. rewrite <- Htp in Hnone.
    destruct (resolveTeams_slug _ _ _ slug Hm) as [(_ & f & Hw & _)|[Hnot _]].
    + congruence.
    + apply Hnot. now apply Hmem.
  - exfalso. rewrite resolveTeams_unfold in Hm.
    apply resolveAll_None_inv in Hm as (slug & Hin & Hnone).
    rewrite Hslugs in Hin. rewrite Htp in Hnone.
    destruct (resolveTeams_slug _ _ _ slug Hm') as [(_ & f & Hw & _)|[Hnot _]].
    + congruence.
    + apply Hnot. now apply Hmem.
Qed.

Lemma team_order_does_not_matter_witness :
  resolveTeams 6 Sample.chain = resolveTeams 6 (reverse Sample.chain).
Proof.
  apply team_order_does_not_matter.
  - symmetry. apply reverse_Permutation.
  - apply sample_chain_slugs_unique.
Defined.

(** ** The two versions of getCollaborators *)

Section Versions.
Variable tf : gmap string string.
Variable reponame : string.

Local Abbreviation enc st :=
  (Legacy.mkScan (Names.String <$> ret st) (isOrgOwner st) (skippedSources st)).

Local Abbreviation encStep res :=
  (match res with
   | Err e => inl (legacyError e)
   | Ok st' => inr (enc st')
   end).

Lemma admin_name p :
  bool_decide (Names.String p = "ADMIN") = bool_decide (p = PermADMIN).
Proof. now destruct p. Qed.

Lemma merge_agrees st key p :
  Legacy.merge reponame (enc st) key (Names.String p)
  = encStep (merge reponame st key p).
Proof.
  unfold Legacy.merge, merge, Legacy.setRet, setRet. cbn [Legacy.ret].
  rewrite lookup_fmap.
  destruct (ret st !! key) as [val|]; simpl.
  - unfold Legacy.resolvesToAdmin, resolvesToAdmin.
    destruct val, p; simpl; destruct (String.prefix "team:" key); simpl;
      rewrite ?fmap_insert; reflexivity.
  - now rewrite fmap_insert.
Qed.

Lemma step_agrees login st source :
  Legacy.step tf reponame login (enc st) (legacySource source)
  = encStep (step tf "datawire" reponame login st source).
Proof.
  unfold Legacy.step, step, Legacy.ownerBypass, ownerBypass.
  cbn [Legacy.Src Legacy.Perm legacySource Legacy.isOrgOwner Legacy.skippedSources
       Legacy.ret].
  change (Legacy.isAmbient (sourceKey tf login (Src source)))
    with (isAmbient "datawire" (sourceKey tf login (Src source))).
  rewrite admin_name.
  destruct (isAmbient "datawire" _); [now case_bool_decide|].
  destruct (isOrgOwner st && negb (index false (skippedSources st) _)
            && bool_decide (Perm source = PermADMIN)); [reflexivity|].
  apply merge_agrees.
Qed.

Lemma scan_agrees login sources : forall st,
  Legacy.scan tf reponame login (enc st) (legacySource <$> sources)
  = encStep (scan tf "datawire" reponame login st sources).
Proof.
  induction sources as [|s l IH]; intros st; [reflexivity|].
  cbn [fmap list_fmap Legacy.scan scan]. rewrite step_agrees.
  destruct (step tf "datawire" reponame login st s) as [e|st1]; [reflexivity|].
  apply IH.
Qed.

Lemma aggregateFrom_agrees edges : forall r,
  Legacy.aggregateFrom tf reponame (Names.String <$> r) (legacyEdge <$> edges)
  = legacyResult (aggregateFrom tf "datawire" reponame r edges).
Proof.
  induction edges as [|u edges IH]; intros r; [reflexivity|].
  cbn [fmap list_fmap Legacy.aggregateFrom aggregateFrom legacyEdge
       Legacy.Login Legacy.PermissionSources].
  pose proof (scan_agrees (Login u) (PermissionSources u) (mkScan r false ∅)) as Hs.
  cbn [ret isOrgOwner skippedSources] in Hs. rewrite Hs.
  destruct (scan tf "datawire" reponame (Login u) (mkScan r false ∅)
              (PermissionSources u)) as [e|st]; [reflexivity|].
  apply IH.
Qed.

End Versions.

(** X24: The version that decodes permissions into [Permission] and takes
    the organization as an argument computes, for the organization
    ["datawire"], what the earlier version with permission strings
    computes on the same collaborators: the same map with the
    permissions as their names, or the same mismatch. *)
Theorem versions_agree_on_the_four_permissions tf reponame edges :
  Legacy.getCollaborators tf reponame (inr (legacyEdge <$> edges))
  = legacyResult (getCollaborators tf "datawire" reponame (Ok edges)).
Proof.
  simpl. unfold aggregate.
  rewrite <- (aggregateFrom_agrees tf reponame edges ∅). now rewrite fmap_empty.
Qed.
